(** * SkyPath: the flight network of [computation.py]

    A shallow embedding of the classes [Airport], [Flight] and
    [FlightNetwork] and of the route queries built on them, followed by the
    properties of the specification that the code satisfies, and by
    counterexamples where it does not.

    Conventions of the embedding.
    - A Python [str] is the [string] of its UTF-8 bytes.  [str.lower]
      belongs to the interpreter, not to the repository: the code that calls
      it takes it as the argument [str_lower], of which only what it does on
      ASCII strings is assumed.
    - A [datetime] is the integer number of microseconds since an epoch and a
      [timedelta] an integer number of microseconds, both in [Z]; Python
      stores exactly these integers.  The bounded range of the two types
      (arithmetic outside it raises [OverflowError]) is not modelled, only
      the constant [timedelta.max] is.
    - [latitude] and [longitude] are carried, never computed on; a finite
      float is a rational.
    - A [dict] is a [gmap].  A [set] of [Flight] is the list of its elements
      in iteration order; no theorem depends on that order.
    - [Flight] defines neither [__eq__] nor [__hash__], so Python compares
      flights by object identity.  The record carries that identity in
      [flight_id]: equality of records is Python's [is] on flights.
    - An exception is a value of [exn]; code that can raise returns an
      [outcome].
    - The two recursive searches take a recursion budget, which Python does
      not have; the budget that the queries give them is shown to be enough,
      and a larger one to change nothing.  The recursion limit of the
      interpreter is not modelled. *)

From Stdlib Require Import ZArith Lia.
From Stdlib Require QArith_base.
From Corelib Require Import PrimFloat.
From Corelib Require Import PrimInt63.
From stdpp Require Import gmap strings list.

#[local] Open Scope Z_scope.

(** ** Data model *)

Record Airport := mkAirport {
  icao : string;
  name : string;
  city_iata : string;
  country : string;
  latitude : QArith_base.Q;
  longitude : QArith_base.Q
}.

Record Flight := mkFlight {
  flight_id : positive;
  flight_number : string;
  airline_name : string;
  airline_icao : string;
  origin : Airport;
  destination : Airport;
  departure_time : Z;
  arrival_time : Z
}.

#[global] Instance Q_eq_dec : EqDecision QArith_base.Q.
Proof. solve_decision. Defined.

#[global] Instance Airport_eq_dec : EqDecision Airport.
Proof. solve_decision. Defined.

#[global] Instance Flight_eq_dec : EqDecision Flight.
Proof. solve_decision. Defined.

(** [Flight.get_duration] *)
Definition get_duration (f : Flight) : Z :=
  arrival_time f - departure_time f.

(** [timedelta.max]: 999999999 days, 23:59:59.999999, in microseconds. *)
Definition timedelta_max : Z := 1000000000 * 86400 * 1000000 - 1.

(** ** Exceptions *)

Inductive exn :=
| ValueError (msg : string)
| IndexError (msg : string)
| KeyError (key : string)
| RequestError (msg : string).

(** The result of running a piece of code: a value, an exception, or the
    exhaustion of the recursion budget of the model. *)
Inductive outcome (A : Type) :=
| Ok (a : A)
| Raise (e : exn)
| OutOfFuel.

Arguments Ok {A} a.
Arguments Raise {A} e.
Arguments OutOfFuel {A}.

#[global] Instance outcome_bind : MBind outcome := λ A B k m,
  match m with
  | Ok a => k a
  | Raise e => Raise e
  | OutOfFuel => OutOfFuel
  end.

(** A [for] loop over [xs] threading the state [s]. *)
Fixpoint for_each {A S} (xs : list A) (body : A → S → outcome S) (s : S)
  : outcome S :=
  match xs with
  | [] => Ok s
  | x :: xs' => s' ← body x s; for_each xs' body s'
  end.

(** ** The network *)

Record FlightNetwork := mkNetwork {
  airports : gmap string Airport;
  flights : gmap string (list Flight)
}.

(** [FlightNetwork.__init__] *)
Definition init : FlightNetwork :=
  {| airports := ∅; flights := ∅ |}.

(** [self.flights.get(code, set())] *)
Definition flights_from (g : FlightNetwork) (code : string) : list Flight :=
  default [] (flights g !! code).

(** [code in self.airports] *)
Definition registered (g : FlightNetwork) (code : string) : Prop :=
  is_Some (airports g !! code).

#[global] Instance registered_dec g code : Decision (registered g code).
Proof. unfold registered. apply _. Defined.

(** [set.add]: identity decides membership. *)
Definition set_add (f : Flight) (s : list Flight) : list Flight :=
  if decide (f ∈ s) then s else s ++ [f].

(** The mutators return their result together with the network they leave
    behind, so that what a failing call did to the network can be stated. *)

(** [FlightNetwork.add_airport] *)
Definition add_airport (airport : Airport) (g : FlightNetwork)
  : outcome unit * FlightNetwork :=
  (Ok (), {| airports := <[icao airport := airport]> (airports g);
             flights := flights g |}).

(** [FlightNetwork.add_flight] *)
Definition add_flight (flight : Flight) (g : FlightNetwork)
  : outcome unit * FlightNetwork :=
  if decide (¬ registered g (icao (origin flight))) then
    (Raise (ValueError "Origin airport not in network"), g)
  else if decide (¬ registered g (icao (destination flight))) then
    (Raise (ValueError "Destination airport not in network"), g)
  else
    match flights g !! icao (origin flight) with
    | Some s =>
        (Ok (), {| airports := airports g;
                   flights := <[icao (origin flight) := set_add flight s]>
                                (flights g) |})
    | None =>
        (Ok (), {| airports := airports g;
                   flights := <[icao (origin flight) := [flight]]>
                                (flights g) |})
    end.

(** [FlightNetwork.total_layover]: the loop over [range(1, len(route))],
    with [prev] for [route[i - 1]] and [total] for the accumulator. *)
Fixpoint layover_loop (prev : Flight) (rest : list Flight) (total : Z) : Z :=
  match rest with
  | [] => total
  | f :: rest' =>
      layover_loop f rest' (total + (departure_time f - arrival_time prev))
  end.

Definition total_layover (route : list Flight) : Z :=
  match route with
  | [] => 0
  | f :: rest => layover_loop f rest 0
  end.

(** ** Enumeration of the simple routes *)

(** The three objects that [find_paths] mutates. *)
Record dfs := mkDfs {
  paths : list Flight;
  visited : gset string;
  all_paths : list (list Flight)
}.

(** [visited.add(code)] *)
Definition visit (code : string) (st : dfs) : dfs :=
  {| paths := paths st; visited := {[code]} ∪ visited st;
     all_paths := all_paths st |}.

(** [visited.remove(code)], which raises [KeyError] on an absent element. *)
Definition unvisit (code : string) (st : dfs) : outcome dfs :=
  if decide (code ∈ visited st) then
    Ok {| paths := paths st; visited := visited st ∖ {[code]};
          all_paths := all_paths st |}
  else Raise (KeyError code).

(** [all_paths.append(paths.copy())] *)
Definition record_path (st : dfs) : dfs :=
  {| paths := paths st; visited := visited st;
     all_paths := all_paths st ++ [paths st] |}.

(** [paths.append(flight)] *)
Definition push (flight : Flight) (st : dfs) : dfs :=
  {| paths := paths st ++ [flight]; visited := visited st;
     all_paths := all_paths st |}.

(** [list.pop()], which raises [IndexError] on the empty list. *)
Definition list_pop (l : list Flight) : outcome (list Flight) :=
  match l with
  | [] => Raise (IndexError "pop from empty list")
  | _ :: _ => Ok (removelast l)
  end.

(** [paths.pop()] *)
Definition pop (st : dfs) : outcome dfs :=
  l ← list_pop (paths st);
  Ok {| paths := l; visited := visited st; all_paths := all_paths st |}.

(** [FlightNetwork.find_paths].  Python recurses without a bound; [fuel]
    bounds the depth of the recursion. *)
Fixpoint find_paths (fuel : nat) (g : FlightNetwork)
    (current_code target_code : string) (st : dfs) : outcome dfs :=
  match fuel with
  | O => OutOfFuel
  | S fuel' =>
      let st := visit current_code st in
      st ← (if decide (current_code = target_code) then Ok (record_path st)
            else
              for_each (flights_from g current_code)
                (λ flight st,
                   if decide (icao (destination flight) ∉ visited st) then
                     st ← find_paths fuel' g (icao (destination flight))
                            target_code (push flight st);
                     pop st
                   else Ok st)
                st);
      unvisit current_code st
  end.

(** Every flight of the network ([_get_all_flights] of the class
    invariants). *)
Definition all_flights (g : FlightNetwork) : list Flight :=
  concat (map snd (map_to_list (flights g))).

(** The airports at which some flight lands. *)
Definition landing_codes (g : FlightNetwork) : gset string :=
  list_to_set (map (λ f, icao (destination f)) (all_flights g)).

(** A route without a repeated airport has at most one flight per landing
    airport: this depth is never exceeded (see [find_all_routes_returns]). *)
Definition depth_bound (g : FlightNetwork) : nat :=
  S (size (landing_codes g)).

(** [FlightNetwork.find_all_routes] *)
Definition find_all_routes (g : FlightNetwork) (from_code to_code : string)
  : outcome (list (list Flight)) :=
  if decide (¬ registered g from_code) then
    Raise (ValueError "Departure airport not found")
  else if decide (¬ registered g to_code) then
    Raise (ValueError "Destination airport not found")
  else
    st ← find_paths (depth_bound g) g from_code to_code
           {| paths := []; visited := ∅; all_paths := [] |};
    Ok (all_paths st).

(** ** Shortest total flight time *)

(** [FlightNetwork.find_shortest_time_path], with the optional arguments as
    options.  [current_flights] is one list shared by all the calls, so each
    call also returns it as it leaves it; [visited] is copied at each
    recursive call, so what a call does to its copy is not seen outside. *)
Fixpoint find_shortest_time_path_from (fuel : nat) (g : FlightNetwork)
    (start_code end_code : string) (visited : option (gset string))
    (current_time : Z) (current_flights : option (list Flight))
    (best_path : option (list Flight * Z))
  : outcome ((list Flight * Z) * list Flight) :=
  match fuel with
  | O => OutOfFuel
  | S fuel' =>
      if decide (¬ registered g start_code) then
        Raise (ValueError "Departure airport not found")
      else if decide (¬ registered g end_code) then
        Raise (ValueError "Destination airport not found")
      else
        let visited := default ∅ visited in
        let current_flights := default [] current_flights in
        let best_path := default ([], timedelta_max) best_path in
        let visited := {[start_code]} ∪ visited in
        if decide (start_code = end_code) then
          if decide (current_time < best_path.2) then
            Ok ((current_flights, current_time), current_flights)
          else Ok (best_path, current_flights)
        else
          '(current_flights, best_path) ←
            for_each (flights_from g start_code)
              (λ flight '(current_flights, best_path),
                 let dest_code := icao (destination flight) in
                 if decide (dest_code ∉ visited) then
                   let new_time := current_time + get_duration flight in
                   if decide (new_time < best_path.2) then
                     let current_flights := current_flights ++ [flight] in
                     '((found_path, found_time), current_flights) ←
                       find_shortest_time_path_from fuel' g dest_code end_code
                         (Some visited) new_time (Some current_flights)
                         (Some best_path);
                     current_flights ← list_pop current_flights;
                     if decide (found_time < best_path.2) then
                       Ok (current_flights, (found_path, found_time))
                     else Ok (current_flights, best_path)
                   else Ok (current_flights, best_path)
                 else Ok (current_flights, best_path))
              (current_flights, best_path);
          if decide (start_code ∈ visited) then
            Ok (match best_path.1 with
                | [] => ([], timedelta_max)
                | _ :: _ => best_path
                end, current_flights)
          else Raise (KeyError start_code)
  end.

Definition find_shortest_time_path (g : FlightNetwork)
    (start_code end_code : string) : outcome (list Flight * Z) :=
  r ← find_shortest_time_path_from (depth_bound g) g start_code end_code
        None 0 None None;
  Ok r.1.

(** ** Queries on top of the enumeration *)

(** The body of the loop of [find_shortest_layover], on the pair of
    [best_route] and [min_layover]. *)
Definition shorter_layover (best : list Flight * Z) (route : list Flight)
  : list Flight * Z :=
  let '(best_route, min_layover) := best in
  let current_layover := total_layover route in
  if decide (current_layover < min_layover) then (route, current_layover)
  else (best_route, min_layover).

(** [FlightNetwork.find_shortest_layover] *)
Definition find_shortest_layover (g : FlightNetwork)
    (start_code end_code : string) : outcome (list Flight) :=
  all_routes ← find_all_routes g start_code end_code;
  match all_routes with
  | [] => Raise (IndexError "list index out of range")
  | best_route :: others =>
      Ok (fold_left shorter_layover others
            (best_route, total_layover best_route)).1
  end.

(** What [str.lower] does on ASCII strings: it changes the letters [A] to
    [Z] and nothing else. *)
Definition lower_ascii (c : Ascii.ascii) : Ascii.ascii :=
  let n := Ascii.nat_of_ascii c in
  if ((65 <=? n) && (n <=? 90))%nat then Ascii.ascii_of_nat (n + 32) else c.

Fixpoint ascii_lower (s : string) : string :=
  match s with
  | EmptyString => EmptyString
  | String c s' => String (lower_ascii c) (ascii_lower s')
  end.

(** Every byte of the string is below 128: the string has ASCII characters
    only. *)
Fixpoint is_ascii (s : string) : bool :=
  match s with
  | EmptyString => true
  | String c s' => (Ascii.nat_of_ascii c <? 128)%nat && is_ascii s'
  end.

(** What is assumed of the interpreter's [str.lower]: on ASCII strings it is
    [ascii_lower].  Nothing is assumed of it on other strings. *)
Definition folds_ascii (str_lower : string → string) : Prop :=
  ∀ s, is_ascii s = true → str_lower s = ascii_lower s.

(** [any(flight.airline_name.lower() == airline.lower() for flight in route)] *)
Definition any_operated_by (str_lower : string → string) (airline : string)
    (route : list Flight) : bool :=
  existsb
    (λ flight,
       bool_decide (str_lower (airline_name flight) = str_lower airline))
    route.

(** [FlightNetwork.find_routes_by_airline], with [str.lower] as the argument
    [str_lower]. *)
Definition find_routes_by_airline (str_lower : string → string)
    (g : FlightNetwork) (origin_code destination_code airline : string)
  : outcome (list (list Flight)) :=
  all_routes ← find_all_routes g origin_code destination_code;
  Ok (fold_left
        (λ airline_routes route,
           if any_operated_by str_lower airline route
           then airline_routes ++ [route]
           else airline_routes)
        all_routes []).

(** The inner loop of [find_valid_routes]: the countries of landing that
    are not in [countries_required_visa]. *)
Definition visa_free_countries (countries_required_visa : list string)
    (route : list Flight) : list string :=
  fold_left
    (λ countries flight,
       if decide (country (destination flight) ∉ countries_required_visa)
       then countries ++ [country (destination flight)]
       else countries)
    route [].

(** [FlightNetwork.find_valid_routes].  The request to the visa service and
    the reading of the names under ["VR"] in its answer are the argument
    [visa_service]: the names for a passport, or the exception raised. *)
Definition find_valid_routes (visa_service : string → outcome (list string))
    (g : FlightNetwork) (passport origin_code destination_code : string)
  : outcome (list (list Flight)) :=
  countries_required_visa ← visa_service passport;
  all_routes ← find_all_routes g origin_code destination_code;
  Ok (fold_left
        (λ valid_routes route,
           match visa_free_countries countries_required_visa route with
           | [] => valid_routes
           | _ :: _ => valid_routes ++ [route]
           end)
        all_routes []).

(** ** Airline reputations ([main.py]) *)

(** The exceptions that the functions of [main.py] raise: the division by
    zero, and an exception of the dictionaries and of the network. *)
Inductive script_exn :=
| ZeroDivisionError (msg : string)
| Raised (e : exn).

(** The result of a function of [main.py], which has no recursion. *)
Inductive answer (A : Type) :=
| Returns (a : A)
| Fails (e : script_exn).

Arguments Returns {A} a.
Arguments Fails {A} e.

(** [get_airline_reputation], on the dictionary [airline_reputations] that
    the script reads from [airline_reputation.json]: floats, by the
    docstrings, so binary64 numbers. *)
Definition get_airline_reputation (airline_reputations : gmap string float)
    (airline_icao_code : string) : answer float :=
  match airline_reputations !! airline_icao_code with
  | Some reputation => Returns reputation
  | None => Fails (Raised (KeyError airline_icao_code))
  end.

(** The loop of [get_route_airline_reputations].  [total_rep] starts as the
    integer [0], which the first addition turns into the float [0.0]. *)
Fixpoint total_reputation (airline_reputations : gmap string float)
    (path : list Flight) (total_rep : float) : answer float :=
  match path with
  | [] => Returns total_rep
  | method_flight :: rest =>
      match airline_reputations !! airline_icao method_flight with
      | Some reputation =>
          total_reputation airline_reputations rest
            (PrimFloat.add total_rep reputation)
      | None => Fails (Raised (KeyError (airline_icao method_flight)))
      end
  end.

(** [len(path)] as the integer that the division turns into a float. *)
Fixpoint int_of_nat (n : nat) : PrimInt63.int :=
  match n with
  | O => 0%uint63
  | S n' => PrimInt63.add (int_of_nat n') 1%uint63
  end.

(** [get_route_airline_reputations]: on the empty path the loop is not
    entered and [0 / 0] on integers raises. *)
Definition get_route_airline_reputations
    (airline_reputations : gmap string float) (path : list Flight)
  : answer float :=
  match total_reputation airline_reputations path PrimFloat.zero with
  | Fails e => Fails e
  | Returns total_rep =>
      match path with
      | [] => Fails (ZeroDivisionError "division by zero")
      | _ :: _ =>
          Returns (PrimFloat.div total_rep
                     (PrimFloat.of_uint63 (int_of_nat (length path))))
      end
  end.

(** The loop of choice 3 of the menu, on the pair of
    [best_route_reputation] and [best_route]; the function is called again
    for the route that scores higher. *)
Fixpoint best_reputation_loop (airline_reputations : gmap string float)
    (all_routes : list (list Flight)) (best : float * list Flight)
  : answer (float * list Flight) :=
  match all_routes with
  | [] => Returns best
  | route :: rest =>
      match get_route_airline_reputations airline_reputations route with
      | Fails e => Fails e
      | Returns reputation =>
          if PrimFloat.ltb best.1 reputation then
            match get_route_airline_reputations airline_reputations route with
            | Fails e => Fails e
            | Returns reputation' =>
                best_reputation_loop airline_reputations rest
                  (reputation', route)
            end
          else best_reputation_loop airline_reputations rest best
      end
  end.

(** Choice 3 of the menu, from the routes that [find_all_routes] returned
    to the score and the route that are printed and drawn; [None] when the
    script prints that no route was found. *)
Definition best_reputation_route (airline_reputations : gmap string float)
    (all_routes : list (list Flight))
  : answer (option (float * list Flight)) :=
  match all_routes with
  | [] => Returns None
  | _ :: _ =>
      match best_reputation_loop airline_reputations all_routes
              (PrimFloat.zero, []) with
      | Fails e => Fails e
      | Returns best => Returns (Some best)
      end
  end.

(** ** Vocabulary of the specification *)

(** The representation invariants of [FlightNetwork], as its docstring lists
    them: a flight is stored under the code of its origin, its two airports
    are registered, and so is every key of [flights]. *)
Record network_ok (g : FlightNetwork) : Prop := {
  ok_stored_under_origin :
    ∀ code f, f ∈ flights_from g code → icao (origin f) = code;
  ok_origin_registered :
    ∀ code f, f ∈ flights_from g code → registered g (icao (origin f));
  ok_destination_registered :
    ∀ code f, f ∈ flights_from g code → registered g (icao (destination f));
  ok_keys_registered :
    ∀ code, is_Some (flights g !! code) → registered g code
}.

(** The networks that a caller can build: [FlightNetwork()] followed by
    calls of [add_airport] and [add_flight], failed ones included. *)
Inductive built : FlightNetwork → Prop :=
| built_init : built init
| built_add_airport g airport : built g → built (add_airport airport g).2
| built_add_flight g flight : built g → built (add_flight flight g).2.

(** The invariant of [Flight] on its two times, in its weak form: no flight
    lands before it leaves. *)
Definition durations_ok (g : FlightNetwork) : Prop :=
  ∀ code f, f ∈ flights_from g code → departure_time f ≤ arrival_time f.

(** Each flight lands where the next one leaves. *)
Fixpoint chain_adjacent (route : list Flight) : Prop :=
  match route with
  | f :: (f' :: _) as rest =>
      icao (destination f) = icao (origin f') ∧ chain_adjacent rest
  | _ => True
  end.

(** Each flight lands before the next one leaves. *)
Fixpoint time_ordered (route : list Flight) : Prop :=
  match route with
  | f :: (f' :: _) as rest =>
      arrival_time f ≤ departure_time f' ∧ time_ordered rest
  | _ => True
  end.

(** The airports of a route that leaves from [a], in order. *)
Definition stops (a : string) (route : list Flight) : list string :=
  a :: ((λ f, icao (destination f)) <$> route).

Definition simple (a : string) (route : list Flight) : Prop :=
  NoDup (stops a route).

Definition starts_at (a : string) (route : list Flight) : Prop :=
  match route with
  | [] => True
  | f :: _ => icao (origin f) = a
  end.

Definition ends_at (a b : string) (route : list Flight) : Prop :=
  last (stops a route) = Some b.

(** Every flight of the route is a flight of the network. *)
Definition in_network (g : FlightNetwork) (route : list Flight) : Prop :=
  ∀ f, f ∈ route → f ∈ flights_from g (icao (origin f)).

(** A route of the network from [a] to [b], repeated airports allowed. *)
Definition connects (g : FlightNetwork) (a b : string) (route : list Flight)
  : Prop :=
  in_network g route ∧ chain_adjacent route ∧ starts_at a route
  ∧ ends_at a b route.

(** The route takes, from [cur] on, a flight of the airport it is at. *)
Fixpoint follows (g : FlightNetwork) (cur : string) (route : list Flight)
  : Prop :=
  match route with
  | [] => True
  | f :: rest =>
      f ∈ flights_from g cur ∧ follows g (icao (destination f)) rest
  end.

(** The sum of the durations of the flights, layovers excluded. *)
Definition flight_time (route : list Flight) : Z :=
  foldr (λ f t, get_duration f + t) 0 route.

(** The routes that the depth-first search follows from [cur] when the
    airports of [seen] are behind it: it stops at [target], and otherwise
    takes a flight of [cur] to an airport that is neither [cur] nor in
    [seen]. *)
Inductive dfs_route (g : FlightNetwork) (target : string)
  : gset string → string → list Flight → Prop :=
| dfs_arrived seen : dfs_route g target seen target []
| dfs_fly seen cur f route :
    cur ≠ target →
    f ∈ flights_from g cur →
    icao (destination f) ∉ ({[cur]} ∪ seen : gset string) →
    dfs_route g target ({[cur]} ∪ seen) (icao (destination f)) route →
    dfs_route g target seen cur (f :: route).

(** What a call of [find_paths] does to the three objects: [paths] and
    [visited] are left as found, and [all_paths] gains the routes in
    [found]. *)
Definition explored (st : dfs) (found : list (list Flight)) : dfs :=
  {| paths := paths st; visited := visited st;
     all_paths := all_paths st ++ found |}.

(** What a call of [find_shortest_time_path] at [cur] with the time [t],
    the flights [flown] and the incumbent [best] returns: a pair [best'] whose
    time no route of the search from [cur] beats, which is either [best] or
    a route of the search with a time below that of [best]. *)
Definition search_result (g : FlightNetwork) (target : string)
    (seen : gset string) (cur : string) (t : Z) (flown : list Flight)
    (best best' : list Flight * Z) : Prop :=
  (∀ route, dfs_route g target seen cur route →
            best'.2 ≤ t + flight_time route)
  ∧ (best' = best
     ∨ ∃ route, dfs_route g target seen cur route
                ∧ best' = (flown ++ route, t + flight_time route)
                ∧ best'.2 < best.2).

(** The incumbent is the pair of the empty route and [timedelta.max] until a
    route is found. *)
Definition incumbent_ok (best : list Flight * Z) : Prop :=
  best.1 = [] → best.2 = timedelta_max.

(** Two flights with the same values in every field of the class. *)
Definition same_fields (f f' : Flight) : Prop :=
  flight_number f = flight_number f' ∧ airline_name f = airline_name f'
  ∧ airline_icao f = airline_icao f' ∧ origin f = origin f'
  ∧ destination f = destination f'
  ∧ departure_time f = departure_time f'
  ∧ arrival_time f = arrival_time f'.

(** Some flight of the route lands in a country that is not in [required]. *)
Definition lands_visa_free (required : list string) (route : list Flight)
  : bool :=
  existsb (λ f, bool_decide (country (destination f) ∉ required)) route.

(** ** Example networks *)

Module Examples.

Definition airport (code land : string) : Airport :=
  {| icao := code; name := code; city_iata := "XXX"; country := land;
     latitude := QArith_base.Qmake 0 1; longitude := QArith_base.Qmake 0 1 |}.

Definition AAAA := airport "AAAA" "Aland".
Definition BBBB := airport "BBBB" "Bland".
Definition CCCC := airport "CCCC" "Cland".

(** An hour, and the time of day [h]:00 of the day of the epoch, in
    microseconds. *)
Definition hour : Z := 3600 * 1000000.
Definition at_hour (h : Z) : Z := h * hour.

(** The example of the specification. *)
Definition ab :=
  mkFlight 1 "X10" "AirX" "AXX" AAAA BBBB (at_hour 10) (at_hour 12).
Definition bc :=
  mkFlight 2 "B20" "Bravo Air" "BRV" BBBB CCCC (at_hour 13) (at_hour 15).
Definition ac :=
  mkFlight 3 "Y30" "Ypsilon" "YPS" AAAA CCCC (at_hour 10) (at_hour 16).

(** A connection that leaves [BBBB] before [ab] lands there. *)
Definition bc_early :=
  mkFlight 4 "X21" "AirX" "AXX" BBBB CCCC (at_hour 11) (at_hour 13).

(** A second object with the field values of [ab]. *)
Definition ab_again :=
  mkFlight 5 "X10" "AirX" "AXX" AAAA BBBB (at_hour 10) (at_hour 12).

(** [AAAA] under another name. *)
Definition AAAA_renamed : Airport :=
  {| icao := "AAAA"; name := "Alpha Field"; city_iata := "XXX";
     country := "Aland"; latitude := QArith_base.Qmake 0 1;
     longitude := QArith_base.Qmake 0 1 |}.

Definition run (ops : list (FlightNetwork → outcome unit * FlightNetwork))
  : FlightNetwork :=
  fold_left (λ g op, (op g).2) ops init.

Definition three_airports : FlightNetwork :=
  run [add_airport AAAA; add_airport BBBB; add_airport CCCC].

Definition net : FlightNetwork :=
  run [add_airport AAAA; add_airport BBBB; add_airport CCCC;
       add_flight ab; add_flight bc; add_flight ac].

Definition net_early : FlightNetwork :=
  run [add_airport AAAA; add_airport BBBB; add_airport CCCC;
       add_flight ab; add_flight bc_early].

(** A network with a flight that lands before it leaves, against the
    invariant of [Flight]. *)
Definition ac_short :=
  mkFlight 6 "Y31" "Ypsilon" "YPS" AAAA CCCC (at_hour 10) (at_hour 12).
Definition ab_long :=
  mkFlight 7 "X11" "AirX" "AXX" AAAA BBBB (at_hour 10) (at_hour 15).
Definition bc_backwards :=
  mkFlight 8 "B21" "Bravo Air" "BRV" BBBB CCCC (at_hour 16) (at_hour 12).

Definition net_backwards : FlightNetwork :=
  run [add_airport AAAA; add_airport BBBB; add_airport CCCC;
       add_flight ac_short; add_flight ab_long; add_flight bc_backwards].

(** The network [net] with the flights added in another order. *)
Definition net_reordered : FlightNetwork :=
  run [add_airport AAAA; add_airport BBBB; add_airport CCCC;
       add_flight ac; add_flight bc; add_flight ab].

(** Scores for the three airlines of the examples, and for two of them. *)
Definition scores : gmap string float :=
  list_to_map [("AXX", 4.5%float); ("BRV", 3%float); ("YPS", 4%float)].
Definition scores_without_bravo : gmap string float :=
  list_to_map [("AXX", 4.5%float); ("YPS", 4%float)].

(** A visa service that lists [Bland] for every passport. *)
Definition bland_required : string → outcome (list string) :=
  λ _, Ok ["Bland"].

End Examples.

(** ** Construction of the network *)

Lemma elem_of_set_add (f f' : Flight) (s : list Flight) :
  f' ∈ set_add f s ↔ f' = f ∨ f' ∈ s.
Proof.
  unfold set_add. case_decide as Hin.
  - split; [by right | intros [-> | ?]; done].
  - rewrite elem_of_app, list_elem_of_singleton. tauto.
Qed.

Lemma set_add_present (f : Flight) (s : list Flight) :
  f ∈ s → set_add f s = s.
Proof. intros Hin. unfold set_add. by rewrite decide_True. Qed.

Lemma flights_from_lookup (g : FlightNetwork) code f :
  f ∈ flights_from g code → ∃ s, flights g !! code = Some s ∧ f ∈ s.
Proof.
  unfold flights_from. destruct (flights g !! code) as [s|]; simpl.
  - eauto.
  - intros Hin. by apply not_elem_of_nil in Hin.
Qed.

Lemma add_airport_registered airport g code :
  registered g code → registered (add_airport airport g).2 code.
Proof.
  unfold registered; simpl. intros Hreg.
  destruct (decide (icao airport = code)) as [<- | Hne].
  - rewrite lookup_insert_eq. eauto.
  - by rewrite lookup_insert_ne.
Qed.

Lemma add_flight_airports flight g :
  airports (add_flight flight g).2 = airports g.
Proof.
  unfold add_flight. repeat case_decide; try done.
  by destruct (flights g !! icao (origin flight)).
Qed.

Lemma add_flight_ok flight g :
  registered g (icao (origin flight)) →
  registered g (icao (destination flight)) →
  add_flight flight g
  = (Ok (), {| airports := airports g;
               flights := <[icao (origin flight) :=
                              set_add flight
                                (flights_from g (icao (origin flight)))]>
                            (flights g) |}).
Proof.
  intros Ho Hd. unfold add_flight, flights_from.
  rewrite !decide_False by (intros Hn; by apply Hn).
  destruct (flights g !! icao (origin flight)); simpl; [done |].
  unfold set_add. rewrite decide_False; [done | apply not_elem_of_nil].
Qed.

Lemma add_flight_raises flight g :
  ¬ (registered g (icao (origin flight))
     ∧ registered g (icao (destination flight))) →
  ∃ msg, add_flight flight g = (Raise (ValueError msg), g).
Proof.
  intros Hn. unfold add_flight. repeat case_decide; eauto.
  exfalso. by apply Hn.
Qed.

Lemma flights_from_add_flight flight g code :
  registered g (icao (origin flight)) →
  registered g (icao (destination flight)) →
  flights_from (add_flight flight g).2 code
  = if decide (code = icao (origin flight))
    then set_add flight (flights_from g code)
    else flights_from g code.
Proof.
  intros Ho Hd. rewrite add_flight_ok by done. unfold flights_from at 1; simpl.
  case_decide as Hc.
  - subst code. by rewrite lookup_insert_eq.
  - by rewrite lookup_insert_ne.
Qed.

Lemma init_ok : network_ok init.
Proof.
  split; unfold flights_from, init; simpl.
  - intros code f. rewrite lookup_empty. simpl. by intros ?%not_elem_of_nil.
  - intros code f. rewrite lookup_empty. simpl. by intros ?%not_elem_of_nil.
  - intros code f. rewrite lookup_empty. simpl. by intros ?%not_elem_of_nil.
  - intros code. rewrite lookup_empty. by intros [? ?].
Qed.

Lemma add_airport_ok airport g :
  network_ok g → network_ok (add_airport airport g).2.
Proof.
  intros [H1 H2 H3 H4]. split.
  - exact H1.
  - intros code f Hin. apply add_airport_registered. by eapply H2.
  - intros code f Hin. apply add_airport_registered. by eapply H3.
  - intros code Hk. apply add_airport_registered. by apply H4.
Qed.

Lemma add_flight_preserves_ok flight g :
  network_ok g → network_ok (add_flight flight g).2.
Proof.
  intros Hok.
  destruct (decide (registered g (icao (origin flight))
                    ∧ registered g (icao (destination flight))))
    as [[Ho Hd] | Hn].
  2: { destruct (add_flight_raises flight g Hn) as [msg ->]. done. }
  destruct Hok as [H1 H2 H3 H4].
  assert (Hreg : ∀ code, registered (add_flight flight g).2 code
                         ↔ registered g code).
  { intros code. unfold registered. by rewrite add_flight_airports. }
  assert (Hin : ∀ code f, f ∈ flights_from (add_flight flight g).2 code →
                  (f = flight ∧ code = icao (origin flight))
                  ∨ f ∈ flights_from g code).
  { intros code f. rewrite flights_from_add_flight by done.
    case_decide; [| by right].
    rewrite elem_of_set_add. intros [-> | ?]; [by left | by right]. }
  split.
  - intros code f [[-> ->] | ?]%Hin; [done | by apply H1].
  - intros code f [[-> ->] | ?]%Hin; apply Hreg; [done | by eapply H2].
  - intros code f [[-> ->] | ?]%Hin; apply Hreg; [done | by eapply H3].
  - intros code Hk. apply Hreg. rewrite add_flight_ok in Hk by done.
    simpl in Hk.
    destruct (decide (icao (origin flight) = code)) as [<- | Hne]; [done |].
    rewrite lookup_insert_ne in Hk by done. by apply H4.
Qed.

(** Every network that a caller can build satisfies the invariants. *)
Lemma built_ok g : built g → network_ok g.
Proof.
  induction 1; auto using init_ok, add_airport_ok, add_flight_preserves_ok.
Qed.

(** C7, as the code has it: [add_airport] never fails.  It stores the airport
    under its code, replacing an airport already registered under that code,
    and changes neither the other airports nor the flights. *)
Theorem add_airport_overwrites (g : FlightNetwork) (airport : Airport) :
  (add_airport airport g).1 = Ok ()
  ∧ airports (add_airport airport g).2 !! icao airport = Some airport
  ∧ (∀ code, code ≠ icao airport →
       airports (add_airport airport g).2 !! code = airports g !! code)
  ∧ flights (add_airport airport g).2 = flights g.
Proof.
  repeat split; simpl.
  - apply lookup_insert_eq.
  - intros code Hne. by apply lookup_insert_ne.
Qed.

(** C7 fails: adding an airport whose code is registered raises nothing, and
    the airport registered before is gone. *)
Lemma add_airport_duplicate_accepted :
  registered Examples.three_airports (icao Examples.AAAA_renamed)
  ∧ (add_airport Examples.AAAA_renamed Examples.three_airports).1 = Ok ()
  ∧ airports Examples.three_airports !! "AAAA" = Some Examples.AAAA
  ∧ airports (add_airport Examples.AAAA_renamed Examples.three_airports).2
      !! "AAAA" = Some Examples.AAAA_renamed.
Proof. repeat split; vm_compute; eauto. Qed.

(** C8, as the code has it: [add_flight] raises [ValueError] exactly when an
    endpoint of the flight is not registered, and then leaves the network as
    it was.  Otherwise it succeeds, leaves the airports as they were, and
    adds the flight to the set stored under the code of its origin, which
    changes nothing when that same flight object is already in the set. *)
Theorem add_flight_spec (g : FlightNetwork) (flight : Flight) :
  let known := registered g (icao (origin flight))
               ∧ registered g (icao (destination flight)) in
  let g' := (add_flight flight g).2 in
  ((∃ msg, (add_flight flight g).1 = Raise (ValueError msg)) ↔ ¬ known)
  ∧ (¬ known → g' = g)
  ∧ (known →
       (add_flight flight g).1 = Ok ()
       ∧ airports g' = airports g
       ∧ flight ∈ flights_from g' (icao (origin flight))
       ∧ (∀ code f, f ∈ flights_from g' code ↔
            (f = flight ∧ code = icao (origin flight))
            ∨ f ∈ flights_from g code)
       ∧ (flight ∈ flights_from g (icao (origin flight)) → g' = g)).
Proof.
  intros known g'. subst g'.
  assert (Hadded : known → ∀ code f,
            f ∈ flights_from (add_flight flight g).2 code ↔
            (f = flight ∧ code = icao (origin flight))
            ∨ f ∈ flights_from g code).
  { intros [Ho Hd] code f. rewrite flights_from_add_flight by done.
    case_decide as Hc.
    - rewrite elem_of_set_add. subst code. tauto.
    - tauto. }
  split; [| split].
  - split.
    + intros [msg Hraise] [Ho Hd].
      rewrite add_flight_ok in Hraise by done. discriminate.
    + intros Hn. destruct (add_flight_raises flight g Hn) as [msg ->]. eauto.
  - intros Hn. by destruct (add_flight_raises flight g Hn) as [msg ->].
  - intros Hk. pose proof Hk as [Ho Hd]. repeat split.
    + by rewrite add_flight_ok.
    + apply add_flight_airports.
    + apply Hadded; [done | by left].
    + by apply Hadded.
    + by apply Hadded.
    + intros Hin. rewrite add_flight_ok by done. simpl.
      rewrite set_add_present by done.
      apply flights_from_lookup in Hin as (s & Hs & Hin).
      unfold flights_from. rewrite Hs. simpl.
      rewrite insert_id by done. by destruct g.
Qed.

(** C8 fails on its last part: [ab_again] has the field values of [ab],
    which is in the set of [AAAA], and yet adding it changes the network:
    the set then holds both. *)
Lemma add_flight_identical_fields_added :
  let g := Examples.run [add_airport Examples.AAAA;
                         add_airport Examples.BBBB;
                         add_flight Examples.ab] in
  same_fields Examples.ab_again Examples.ab
  ∧ flights_from g "AAAA" = [Examples.ab]
  ∧ (add_flight Examples.ab_again g).1 = Ok ()
  ∧ flights_from (add_flight Examples.ab_again g).2 "AAAA"
    = [Examples.ab; Examples.ab_again]
  ∧ (add_flight Examples.ab_again g).2 ≠ g.
Proof.
  repeat split; try (vm_compute; reflexivity).
  intros Heq.
  assert (Hlen : length (flights_from
                   (add_flight Examples.ab_again
                      (Examples.run [add_airport Examples.AAAA;
                                     add_airport Examples.BBBB;
                                     add_flight Examples.ab])).2 "AAAA")
                 = length (flights_from
                      (Examples.run [add_airport Examples.AAAA;
                                     add_airport Examples.BBBB;
                                     add_flight Examples.ab]) "AAAA"))
    by (by rewrite Heq).
  vm_compute in Hlen. discriminate.
Qed.

(** ** Layovers *)

Lemma layover_loop_acc prev rest total :
  layover_loop prev rest total = total + layover_loop prev rest 0.
Proof.
  revert prev total. induction rest as [| f rest IH]; intros prev total; simpl.
  - lia.
  - rewrite (IH f (total + _)), (IH f (0 + _)). lia.
Qed.

(** The loop of [find_shortest_layover] keeps a route of least layover
    among those seen so far. *)
Lemma shortest_layover_loop (others : list (list Flight)) best :
  ∃ res,
    fold_left shorter_layover others (best, total_layover best)
    = (res, total_layover res)
    ∧ res ∈ best :: others
    ∧ ∀ r, r ∈ best :: others → total_layover res ≤ total_layover r.
Proof.
  revert best. induction others as [| route others IH]; intros best;
    cbn [fold_left].
  - exists best. repeat split; [apply list_elem_of_here |].
    intros r ->%list_elem_of_singleton. lia.
  - unfold shorter_layover at 2. cbv beta iota zeta. case_decide as Hlt.
    + destruct (IH route) as (res & -> & Hin & Hmin). exists res.
      repeat split; [by apply list_elem_of_further |].
      intros r [-> | Hr]%elem_of_cons; [| by apply Hmin].
      specialize (Hmin route (list_elem_of_here _ _)). lia.
    + destruct (IH best) as (res & -> & Hin & Hmin). exists res.
      repeat split.
      * apply elem_of_cons in Hin as [-> | Hin];
          [apply list_elem_of_here | by do 2 apply list_elem_of_further].
      * intros r [-> | [-> | Hr]%elem_of_cons]%elem_of_cons.
        -- apply Hmin, list_elem_of_here.
        -- specialize (Hmin best (list_elem_of_here _ _)). lia.
        -- by apply Hmin, list_elem_of_further.
Qed.

Lemma shortest_layover_of_routes g a b (routes : list (list Flight)) :
  find_all_routes g a b = Ok routes → routes ≠ [] →
  ∃ best, find_shortest_layover g a b = Ok best ∧ best ∈ routes
          ∧ ∀ r, r ∈ routes → total_layover best ≤ total_layover r.
Proof.
  intros Hall Hne. unfold find_shortest_layover. rewrite Hall. simpl.
  destruct routes as [| first others]; [done |].
  destruct (shortest_layover_loop others first) as (res & -> & Hin & Hmin).
  by exists res.
Qed.

(** C4: when there are routes from [a] to [b], [find_shortest_layover]
    returns one of them, and none of them has a smaller total layover. *)
Theorem find_shortest_layover_minimal g a b (routes : list (list Flight)) :
  find_all_routes g a b = Ok routes → routes ≠ [] →
  ∃ best, find_shortest_layover g a b = Ok best ∧ best ∈ routes
          ∧ ∀ r, r ∈ routes → total_layover best ≤ total_layover r.
Proof. apply shortest_layover_of_routes. Qed.

(** C9: when there is no route from [a] to [b], [find_shortest_layover]
    fails: reading [all_routes[0]] raises [IndexError]. *)
Theorem find_shortest_layover_no_route g a b :
  find_all_routes g a b = Ok [] →
  ∃ msg, find_shortest_layover g a b = Raise (IndexError msg).
Proof.
  intros Hall. unfold find_shortest_layover. rewrite Hall. simpl. eauto.
Qed.

(** C10: on a route of fewer than two flights the loop of [total_layover]
    is not entered and the result is the zero [timedelta]; when such a route
    is among the routes found, [find_shortest_layover] compares it with the
    others and returns a route without layover. *)
Theorem total_layover_short_route (route : list Flight) :
  (length route < 2)%nat →
  total_layover route = 0
  ∧ ∀ g a b (routes : list (list Flight)),
      find_all_routes g a b = Ok routes → route ∈ routes →
      ∃ best, find_shortest_layover g a b = Ok best
              ∧ total_layover best ≤ 0.
Proof.
  intros Hlen.
  assert (Hzero : total_layover route = 0).
  { destruct route as [| f [| f' rest]]; simpl in *; [done | done | lia]. }
  split; [done |]. intros g a b routes Hall Hin.
  destruct (shortest_layover_of_routes g a b routes Hall)
    as (best & Hbest & _ & Hmin).
  { intros ->. by apply not_elem_of_nil in Hin. }
  exists best. split; [done |]. rewrite <- Hzero. by apply Hmin.
Qed.

(** ** Filters *)

Lemma keep_loop {A} (keep : A → bool) (l acc : list A) :
  fold_left (λ kept x, if keep x then kept ++ [x] else kept) l acc
  = acc ++ List.filter keep l.
Proof.
  revert acc. induction l as [| x l IH]; intros acc; simpl.
  - by rewrite app_nil_r.
  - rewrite IH. destruct (keep x); [| done]. by rewrite <- app_assoc.
Qed.

Lemma elem_of_list_filter {A} (keep : A → bool) (l : list A) x :
  x ∈ List.filter keep l ↔ x ∈ l ∧ keep x = true.
Proof. rewrite !list_elem_of_In. apply filter_In. Qed.

Lemma any_operated_by_spec str_lower airline (route : list Flight) :
  any_operated_by str_lower airline route = true
  ↔ ∃ f, f ∈ route ∧ str_lower (airline_name f) = str_lower airline.
Proof.
  unfold any_operated_by. rewrite existsb_exists. split.
  - intros (f & Hin & Heq). exists f.
    by rewrite <- list_elem_of_In, bool_decide_eq_true in *.
  - intros (f & Hin & Heq). exists f.
    by rewrite <- list_elem_of_In, bool_decide_eq_true.
Qed.

(** C5: whatever [str.lower] does outside ASCII, [find_routes_by_airline]
    returns, in their order, the routes of [find_all_routes] in which some
    flight has an airline name with the same [str.lower] as the name asked
    for, flights of other airlines in them or not.  In particular it keeps
    every route with a flight whose airline name, in ASCII, is the name
    asked for up to the case of the letters. *)
Theorem find_routes_by_airline_any_leg str_lower g a b airline
    (routes : list (list Flight)) :
  folds_ascii str_lower →
  find_all_routes g a b = Ok routes →
  ∃ kept, find_routes_by_airline str_lower g a b airline = Ok kept
    ∧ kept = List.filter (any_operated_by str_lower airline) routes
    ∧ (∀ r, r ∈ kept ↔
         r ∈ routes
         ∧ ∃ f, f ∈ r ∧ str_lower (airline_name f) = str_lower airline)
    ∧ (∀ r f, r ∈ routes → f ∈ r →
         is_ascii (airline_name f) = true → is_ascii airline = true →
         ascii_lower (airline_name f) = ascii_lower airline →
         r ∈ kept).
Proof.
  intros Hfolds Hall. unfold find_routes_by_airline. rewrite Hall. simpl.
  eexists. split; [reflexivity |]. rewrite keep_loop. simpl.
  split; [done |].
  assert (Hkept : ∀ r, r ∈ List.filter (any_operated_by str_lower airline)
                             routes ↔
            r ∈ routes
            ∧ ∃ f, f ∈ r ∧ str_lower (airline_name f) = str_lower airline).
  { intros r. by rewrite elem_of_list_filter, any_operated_by_spec. }
  split; [exact Hkept |].
  intros r f Hr Hf Hname Hquery Hsame. apply Hkept. split; [done |].
  exists f. split; [done |]. by rewrite !Hfolds.
Qed.

(** The ASCII letters of the name asked for may be in either case, and a
    flight of another airline may be in a route that the filter keeps. *)
Example find_routes_by_airline_mixed :
  find_routes_by_airline ascii_lower Examples.net "AAAA" "CCCC" "AIRX"
  = Ok [[Examples.ab; Examples.bc]]
  ∧ airline_name Examples.ab = "AirX"
  ∧ airline_name Examples.bc = "Bravo Air".
Proof. repeat split; vm_compute; reflexivity. Qed.

Lemma visa_free_countries_acc required (route : list Flight) acc :
  fold_left
    (λ countries flight,
       if decide (country (destination flight) ∉ required)
       then countries ++ [country (destination flight)]
       else countries)
    route acc
  = acc ++ visa_free_countries required route.
Proof.
  unfold visa_free_countries. revert acc.
  induction route as [| f route IH]; intros acc; cbn [fold_left].
  - by rewrite app_nil_r.
  - case_decide.
    + rewrite (IH (acc ++ _)), (IH ([] ++ _)). by rewrite <- app_assoc.
    + by rewrite IH.
Qed.

(** The list collected for a route is empty exactly when every flight of
    the route lands in a country of the list. *)
Lemma visa_free_countries_nil required (route : list Flight) :
  visa_free_countries required route = []
  ↔ ∀ f, f ∈ route → country (destination f) ∈ required.
Proof.
  induction route as [| f route IH].
  - split; [| done]. intros _ f Hin. by apply not_elem_of_nil in Hin.
  - unfold visa_free_countries. simpl. rewrite visa_free_countries_acc.
    case_decide as Hc; simpl.
    + split; [done |]. intros Hall. exfalso. apply Hc, Hall, list_elem_of_here.
    + rewrite IH. split.
      * intros Hall f' [-> | Hin]%elem_of_cons; [done | by apply Hall].
      * intros Hall f' Hin. by apply Hall, list_elem_of_further.
Qed.

Lemma lands_visa_free_spec required (route : list Flight) :
  lands_visa_free required route = true
  ↔ ∃ f, f ∈ route ∧ country (destination f) ∉ required.
Proof.
  unfold lands_visa_free. rewrite existsb_exists. split.
  - intros (f & Hin & Hc). exists f.
    by rewrite <- list_elem_of_In, bool_decide_eq_true in *.
  - intros (f & Hin & Hc). exists f.
    by rewrite <- list_elem_of_In, bool_decide_eq_true.
Qed.

Lemma visa_free_countries_cons required (route : list Flight) :
  lands_visa_free required route
  = match visa_free_countries required route with
    | [] => false
    | _ :: _ => true
    end.
Proof.
  destruct (visa_free_countries required route) as [| c cs] eqn:Hv.
  - apply not_true_is_false. rewrite lands_visa_free_spec.
    intros (f & Hin & Hc). apply Hc.
    by apply (proj1 (visa_free_countries_nil required route)).
  - apply dec_stable. intros Hn%not_true_is_false.
    assert (Hnil : visa_free_countries required route = []); [| congruence].
    apply visa_free_countries_nil. intros f Hin. apply dec_stable. intros Hc.
    assert (lands_visa_free required route = true); [| congruence].
    apply lands_visa_free_spec. eauto.
Qed.

(** C6: with [required] the countries that the visa service lists for the
    passport, [find_valid_routes] keeps, in their order, the routes of
    [find_all_routes] in which some flight lands in a country that is not in
    [required]; the other flights of a kept route may land anywhere. *)
Theorem find_valid_routes_any_leg visa_service g passport a b
    (required : list string) (routes : list (list Flight)) :
  visa_service passport = Ok required →
  find_all_routes g a b = Ok routes →
  ∃ kept, find_valid_routes visa_service g passport a b = Ok kept
    ∧ kept = List.filter (lands_visa_free required) routes
    ∧ ∀ r, r ∈ kept ↔
        r ∈ routes ∧ ∃ f, f ∈ r ∧ country (destination f) ∉ required.
Proof.
  intros Hvisa Hall. unfold find_valid_routes. rewrite Hvisa, Hall. simpl.
  eexists. split; [reflexivity |].
  assert (Hloop : ∀ l acc,
    fold_left
      (λ valid_routes route,
         match visa_free_countries required route with
         | [] => valid_routes
         | _ :: _ => valid_routes ++ [route]
         end) l acc
    = fold_left
        (λ kept r, if lands_visa_free required r then kept ++ [r] else kept)
        l acc).
  { induction l as [| r l IH]; intros acc; simpl; [done |].
    rewrite IH, visa_free_countries_cons.
    by destruct (visa_free_countries required r). }
  rewrite Hloop, keep_loop. simpl. split; [done |]. intros r.
  by rewrite elem_of_list_filter, lands_visa_free_spec.
Qed.

(** A kept route with a leg into a country of the list: [ab] lands in
    [Bland]. *)
Example find_valid_routes_mixed :
  find_valid_routes Examples.bland_required Examples.net "HK" "AAAA" "CCCC"
  = Ok [[Examples.ab; Examples.bc]; [Examples.ac]]
  ∧ country (destination Examples.ab) = "Bland".
Proof. split; vm_compute; reflexivity. Qed.

(** ** The depth-first enumeration *)

Lemma list_pop_snoc (l : list Flight) f : list_pop (l ++ [f]) = Ok l.
Proof.
  unfold list_pop. destruct (l ++ [f]) eqn:E.
  - by destruct l.
  - by rewrite <- E, removelast_last.
Qed.

Lemma flights_from_all g code f :
  f ∈ flights_from g code → f ∈ all_flights g.
Proof.
  intros (s & Hs & Hin)%flights_from_lookup. unfold all_flights.
  apply list_elem_of_In, in_concat. exists s. split.
  - apply in_map_iff. exists (code, s). split; [done |].
    by apply list_elem_of_In, elem_of_map_to_list.
  - by apply list_elem_of_In.
Qed.

Lemma landing_code g code f :
  f ∈ flights_from g code → icao (destination f) ∈ landing_codes g.
Proof.
  intros Hin%flights_from_all. unfold landing_codes.
  apply elem_of_list_to_set, list_elem_of_In.
  apply (in_map (λ f, icao (destination f))). by apply list_elem_of_In.
Qed.

(** Each airport entered leaves fewer airports to enter. *)
Lemma fewer_codes_left (codes seen : gset string) code :
  code ∈ codes → code ∉ seen →
  (size (codes ∖ ({[code]} ∪ seen)) < size (codes ∖ seen))%nat.
Proof.
  intros Hin Hnot. apply subset_size. split.
  - intros c. rewrite !elem_of_difference, elem_of_union. tauto.
  - intros Hsub. specialize (Hsub code).
    rewrite !elem_of_difference, elem_of_union, elem_of_singleton in Hsub.
    tauto.
Qed.


(** [visited.remove] undoes [visited.add] of an airport that was not in
    the set. *)
Lemma remove_added (seen : gset string) code :
  code ∉ seen → ({[code]} ∪ seen) ∖ {[code]} = seen.
Proof.
  intros Hnew. apply set_eq. intros c.
  rewrite elem_of_difference, elem_of_union, elem_of_singleton.
  split; [tauto |]. intros Hc. split; [by right |]. by intros ->.
Qed.

Lemma bind_ok {A B} (a : A) (k : A → outcome B) : (Ok a ≫= k) = k a.
Proof. reflexivity. Qed.

Lemma explored_nil st : explored st [] = st.
Proof. destruct st. unfold explored. simpl. by rewrite app_nil_r. Qed.

Lemma explored_app st found found' :
  explored (explored st found) found' = explored st (found ++ found').
Proof. unfold explored. simpl. by rewrite app_assoc. Qed.

(** The loop of [find_paths] over the flights of [cur], for any recursive
    call [rec] that behaves as [find_paths] is to be shown to. *)
Lemma explore_flights g target cur (seen : gset string)
    (rec : string → dfs → outcome dfs) :
  (∀ code st,
     code ∈ landing_codes g → code ∉ visited st →
     visited st = {[cur]} ∪ seen →
     ∃ found, rec code st = Ok (explored st found)
       ∧ ∀ r, r ∈ found ↔
           ∃ route, r = paths st ++ route
                    ∧ dfs_route g target (visited st) code route) →
  ∀ (fl : list Flight) st,
    (∀ f, f ∈ fl → f ∈ flights_from g cur) →
    visited st = {[cur]} ∪ seen →
    ∃ found,
      for_each fl
        (λ flight st,
           if decide (icao (destination flight) ∉ visited st) then
             st ← rec (icao (destination flight)) (push flight st);
             pop st
           else Ok st) st
      = Ok (explored st found)
      ∧ ∀ r, r ∈ found ↔
          ∃ f route, f ∈ fl ∧ (icao (destination f) ∉ visited st)
                     ∧ r = paths st ++ f :: route
                     ∧ dfs_route g target (visited st)
                         (icao (destination f)) route.
Proof.
  intros Hrec fl. induction fl as [| f fl IH]; intros st Hfl Hseen.
  - exists []. rewrite explored_nil. split; [done |]. intros r. split.
    + by intros ?%not_elem_of_nil.
    + intros (f & route & Hin & _). by apply not_elem_of_nil in Hin.
  - assert (Hrest : ∀ f', f' ∈ fl → f' ∈ flights_from g cur).
    { intros f' Hin. by apply Hfl, list_elem_of_further. }
    cbn [for_each]. case_decide as Hnew.
    + destruct (Hrec (icao (destination f)) (push f st)) as (found1 & -> & H1).
      { eapply landing_code, Hfl, list_elem_of_here. }
      { done. }
      { done. }
      rewrite bind_ok. unfold pop, explored, push.
      cbn [paths visited all_paths]. rewrite list_pop_snoc, !bind_ok.
      destruct (IH (explored st found1) Hrest Hseen) as (found2 & Heq & H2).
      rewrite explored_app in Heq.
      exists (found1 ++ found2). split; [exact Heq |].
      intros r. rewrite elem_of_app, H1, H2. cbn. split.
      * intros [(route & -> & Hroute) | (f' & route & Hin & Hn & -> & Hroute)].
        -- exists f, route. rewrite <- app_assoc.
           repeat split; [apply list_elem_of_here | done | done].
        -- exists f', route. repeat split; [by apply list_elem_of_further | done | done].
      * intros (f' & route & [-> | Hin]%elem_of_cons & Hn & -> & Hroute).
        -- left. exists route. by rewrite <- app_assoc.
        -- right. by exists f', route.
    + rewrite bind_ok.
      destruct (IH st Hrest Hseen) as (found & -> & H). exists found.
      split; [done |]. intros r. rewrite H. split.
      * intros (f' & route & Hin & Hrest'). exists f', route.
        split; [by apply list_elem_of_further | done].
      * intros (f' & route & [-> | Hin]%elem_of_cons & Hn & Hrest').
        -- done.
        -- by exists f', route.
Qed.

Lemma find_paths_spec g target fuel :
  ∀ cur st,
    cur ∉ visited st →
    (size (landing_codes g ∖ ({[cur]} ∪ visited st)) < fuel)%nat →
    ∃ found, find_paths fuel g cur target st = Ok (explored st found)
      ∧ ∀ r, r ∈ found ↔
          ∃ route, r = paths st ++ route
                   ∧ dfs_route g target (visited st) cur route.
Proof.
  induction fuel as [| fuel IH]; intros cur st Hcur Hfuel; [lia |].
  assert (Hback := remove_added (visited st) cur Hcur).
  assert (Hadded : cur ∈ ({[cur]} ∪ visited st : gset string))
    by by apply elem_of_union_l, elem_of_singleton.
  cbn [find_paths]. case_decide as Htarget.
  - subst cur. exists [paths st]. cbn. unfold unvisit. cbn.
    rewrite decide_True by done. rewrite Hback. split; [done |].
    intros r. rewrite list_elem_of_singleton. split.
    + intros ->. exists []. rewrite app_nil_r. split; [done | constructor].
    + intros (route & -> & Hroute). inversion Hroute; subst.
      * by rewrite app_nil_r.
      * done.
  - destruct (explore_flights g target cur (visited st)
                (λ code st', find_paths fuel g code target st'))
      with (fl := flights_from g cur) (st := visit cur st)
      as (found & Hloop & Hfound).
    + intros code st' Hland Hnew Hseen. apply IH; [done |].
      rewrite Hseen.
      assert (Hlt := fewer_codes_left (landing_codes g)
                       ({[cur]} ∪ visited st) code Hland).
      rewrite Hseen in Hnew. specialize (Hlt Hnew). lia.
    + done.
    + done.
    + cbv beta in Hloop. rewrite Hloop. cbn. unfold unvisit. cbn.
      rewrite decide_True by done. rewrite Hback.
      exists found. split; [done |]. intros r. rewrite Hfound. cbn. split.
      * intros (f & route & Hin & Hn & -> & Hroute).
        exists (f :: route). split; [done |]. by constructor.
      * intros (route & -> & Hroute). inversion Hroute; subst; [done |].
        eauto 10.
Qed.

(** [find_all_routes] returns whenever both codes are registered, and the
    routes it returns are those of the search from [a]. *)
Lemma find_all_routes_returns g a b :
  registered g a → registered g b →
  ∃ routes, find_all_routes g a b = Ok routes
    ∧ ∀ r, r ∈ routes ↔ dfs_route g b ∅ a r.
Proof.
  intros Ha Hb. unfold find_all_routes.
  rewrite !decide_False by (intros Hn; by apply Hn).
  destruct (find_paths_spec g b (depth_bound g) a (mkDfs [] ∅ []))
    as (found & -> & Hfound).
  - set_solver.
  - unfold depth_bound. cbn [visited]. apply Nat.lt_succ_r, subseteq_size.
    intros c. rewrite elem_of_difference. tauto.
  - exists found. split; [done |]. intros r. rewrite Hfound. cbn. split.
    + by intros (route & -> & Hroute).
    + intros Hroute. by exists r.
Qed.

Lemma find_all_routes_registered g a b (routes : list (list Flight)) :
  find_all_routes g a b = Ok routes → registered g a ∧ registered g b.
Proof.
  unfold find_all_routes. repeat case_decide; try done. 
Qed.

(** ** Routes of the search and routes of the specification *)

Lemma follows_route g (Hok : network_ok g) a (route : list Flight) :
  follows g a route →
  in_network g route ∧ chain_adjacent route ∧ starts_at a route.
Proof.
  revert a. induction route as [| f route IH]; intros a Hfollows.
  - repeat split. intros f Hin. by apply not_elem_of_nil in Hin.
  - destruct Hfollows as [Hf Hrest].
    destruct (IH _ Hrest) as (Hin & Hchain & Hstart).
    pose proof (ok_stored_under_origin g Hok a f Hf) as Ho.
    repeat split.
    + intros f' [-> | Hf']%elem_of_cons; [by rewrite Ho | by apply Hin].
    + destruct route as [| f' route]; [done |]. by split.
    + done.
Qed.

Lemma route_follows g a (route : list Flight) :
  in_network g route → chain_adjacent route → starts_at a route →
  follows g a route.
Proof.
  revert a. induction route as [| f route IH]; intros a Hin Hchain Hstart.
  - done.
  - simpl in Hstart. subst a. split.
    + apply Hin, list_elem_of_here.
    + apply IH.
      * intros f' Hf'. by apply Hin, list_elem_of_further.
      * by destruct route as [| f' route]; [| destruct Hchain].
      * by destruct route as [| f' route]; [| destruct Hchain].
Qed.

Lemma dfs_route_sound g target seen cur (route : list Flight) :
  dfs_route g target seen cur route →
  follows g cur route
  ∧ NoDup (stops cur route)
  ∧ (∀ c, c ∈ stops cur route → c ≠ cur → c ∉ seen)
  ∧ last (stops cur route) = Some target.
Proof.
  induction 1 as [seen | seen cur f route Hne Hf Hnew Hroute IH].
  - repeat split.
    + apply NoDup_singleton.
    + intros c ->%list_elem_of_singleton. done.
  - destruct IH as (Hfollows & Hnodup & Hseen & Hlast).
    assert (Hlater : ∀ c, c ∈ stops (icao (destination f)) route →
                          c ∉ ({[cur]} ∪ seen : gset string)).
    { intros c Hc. destruct (decide (c = icao (destination f))) as [-> | Hd].
      - done.
      - by apply Hseen. }
    repeat split.
    + done.
    + done.
    + apply NoDup_cons. split; [| done].
      intros Hc%Hlater. set_solver.
    + intros c [-> | Hc%Hlater]%elem_of_cons Hcur; [done | set_solver].
    + unfold stops in *. by rewrite fmap_cons, last_cons_cons.
Qed.

Lemma dfs_route_complete g target (route : list Flight) :
  ∀ seen cur,
    follows g cur route →
    NoDup (stops cur route) →
    (∀ c, c ∈ stops cur route → c ≠ cur → c ∉ seen) →
    last (stops cur route) = Some target →
    dfs_route g target seen cur route.
Proof.
  induction route as [| f route IH]; intros seen cur Hfollows Hnodup Hseen Hlast.
  - simpl in Hlast. injection Hlast as ->. constructor.
  - destruct Hfollows as [Hf Hrest].
    unfold stops in *. cbn [fmap list_fmap] in *.
    apply NoDup_cons in Hnodup as [Hcur Hnodup].
    rewrite last_cons_cons in Hlast.
    constructor.
    + intros ->. by apply Hcur, last_Some_elem_of.
    + done.
    + apply not_elem_of_union. split.
      * rewrite elem_of_singleton. intros Heq. apply Hcur. rewrite <- Heq.
        apply list_elem_of_here.
      * apply Hseen; [apply list_elem_of_further, list_elem_of_here |].
        intros Heq. apply Hcur. rewrite <- Heq. apply list_elem_of_here.
    + apply IH; [done | done | | done].
      intros c Hc Hne. apply not_elem_of_union. split.
      * rewrite elem_of_singleton. intros ->. done.
      * apply Hseen; [by apply list_elem_of_further |]. by intros ->.
Qed.

Lemma built_example_early : built Examples.net_early.
Proof.
  unfold Examples.net_early, Examples.run. cbn [fold_left].
  repeat first [apply built_add_flight | apply built_add_airport
               | apply built_init].
Qed.

Lemma built_example : built Examples.net.
Proof.
  unfold Examples.net, Examples.run. cbn [fold_left].
  repeat first [apply built_add_flight | apply built_add_airport
               | apply built_init].
Qed.

(** C1, as the code has it: in a network that satisfies the invariants of
    the class, every route that [find_all_routes] returns for [a] and [b] is
    made of flights of the network, visits no airport twice, leaves from
    [a], ends at [b], and each of its flights lands where the next one
    leaves.  The times of the flights are not looked at. *)
Theorem find_all_routes_sound g a b (routes : list (list Flight))
    (r : list Flight) :
  network_ok g →
  find_all_routes g a b = Ok routes → r ∈ routes →
  in_network g r ∧ simple a r ∧ starts_at a r ∧ ends_at a b r
  ∧ chain_adjacent r.
Proof.
  intros Hok Hall Hin.
  destruct (find_all_routes_registered g a b routes Hall) as [Ha Hb].
  destruct (find_all_routes_returns g a b Ha Hb) as (routes' & Hall' & Hdfs).
  assert (routes' = routes) as -> by congruence.
  apply Hdfs, dfs_route_sound in Hin as (Hfollows & Hnodup & _ & Hlast).
  apply follows_route in Hfollows as (Hnet & Hchain & Hstart); [| done].
  by repeat split.
Qed.

(** C1 fails on the order in time: in a network built with [add_airport]
    and [add_flight], [find_all_routes] returns the route whose second
    flight leaves [BBBB] at 11:00, an hour before the first one lands
    there. *)
Lemma find_all_routes_not_time_ordered :
  built Examples.net_early
  ∧ find_all_routes Examples.net_early "AAAA" "CCCC"
    = Ok [[Examples.ab; Examples.bc_early]]
  ∧ ¬ time_ordered [Examples.ab; Examples.bc_early].
Proof.
  split; [apply built_example_early |]. split.
  - vm_compute. reflexivity.
  - intros [Hle _]. vm_compute in Hle. by apply Hle.
Qed.

(** C2: every route of the network from [a] to [b] that visits no airport
    twice is in the list that [find_all_routes] returns, the routes that
    are ordered in time among them; and the list is empty when no sequence
    of flights of the network leads from [a] to [b]. *)
Theorem find_all_routes_complete g a b :
  registered g a → registered g b →
  ∃ routes, find_all_routes g a b = Ok routes
    ∧ (∀ r, connects g a b r → time_ordered r → simple a r → r ∈ routes)
    ∧ (network_ok g → (∀ r, ¬ connects g a b r) → routes = []).
Proof.
  intros Ha Hb.
  destruct (find_all_routes_returns g a b Ha Hb) as (routes & Hall & Hdfs).
  exists routes. split; [done |]. split.
  - intros r (Hnet & Hchain & Hstart & Hend) _ Hsimple.
    apply Hdfs, dfs_route_complete; [by apply route_follows | done | | done].
    intros c _ _. apply not_elem_of_empty.
  - intros Hok Hnone. destruct routes as [| r routes]; [done |].
    exfalso. apply (Hnone r).
    assert (Hr : dfs_route g b ∅ a r) by apply Hdfs, list_elem_of_here.
    apply dfs_route_sound in Hr as (Hfollows & _ & _ & Hlast).
    apply follows_route in Hfollows as (Hnet & Hchain & Hstart); [| done].
    by repeat split.
Qed.

(** ** The search for the shortest flight time *)

Lemma bind_eq {A B} (m : outcome A) (k : A → outcome B) a r :
  m = Ok a → k a = r → (m ≫= k) = r.
Proof. by intros -> <-. Qed.

Lemma flight_time_cons f (route : list Flight) :
  flight_time (f :: route) = get_duration f + flight_time route.
Proof. reflexivity. Qed.

Lemma flight_time_nonneg g cur (route : list Flight) :
  durations_ok g → follows g cur route → 0 ≤ flight_time route.
Proof.
  intros Hdur. revert cur.
  induction route as [| f route IH]; intros cur Hfollows; [done |].
  destruct Hfollows as [Hf Hrest]. rewrite flight_time_cons.
  specialize (IH _ Hrest). specialize (Hdur _ _ Hf).
  unfold get_duration. lia.
Qed.

Lemma dfs_route_time g target seen cur (route : list Flight) :
  durations_ok g → dfs_route g target seen cur route → 0 ≤ flight_time route.
Proof.
  intros Hdur (Hfollows & _)%dfs_route_sound.
  by eapply flight_time_nonneg.
Qed.

Section shortest_time.
Context (g : FlightNetwork) (target : string).
Hypothesis Hok : network_ok g.
Hypothesis Hdur : durations_ok g.
Hypothesis Htarget : registered g target.

(** The loop of [find_shortest_time_path] over the flights of [cur], for
    any recursive call [rec] that returns what [search_result] says. *)
Lemma shortest_time_loop cur (seen : gset string) (t : Z)
    (rec : string → option (gset string) → Z → option (list Flight) →
           option (list Flight * Z) →
           outcome ((list Flight * Z) * list Flight)) :
  cur ≠ target →
  (∀ code t' flown best,
     code ∈ landing_codes g → registered g code →
     code ∉ ({[cur]} ∪ seen : gset string) → incumbent_ok best →
     ∃ best', rec code (Some ({[cur]} ∪ seen)) t' (Some flown) (Some best)
              = Ok (best', flown)
       ∧ search_result g target ({[cur]} ∪ seen) code t' flown best best') →
  ∀ (fl : list Flight) flown best,
    (∀ f, f ∈ fl → f ∈ flights_from g cur) →
    incumbent_ok best →
    ∃ best',
      for_each fl
        (λ flight '(current_flights, best_path),
           let dest_code := icao (destination flight) in
           if decide (dest_code ∉ ({[cur]} ∪ seen : gset string)) then
             let new_time := t + get_duration flight in
             if decide (new_time < best_path.2) then
               let current_flights := current_flights ++ [flight] in
               '((found_path, found_time), current_flights) ←
                 rec dest_code (Some ({[cur]} ∪ seen)) new_time
                   (Some current_flights) (Some best_path);
               current_flights ← list_pop current_flights;
               if decide (found_time < best_path.2) then
                 Ok (current_flights, (found_path, found_time))
               else Ok (current_flights, best_path)
             else Ok (current_flights, best_path)
           else Ok (current_flights, best_path))
        (flown, best)
      = Ok (flown, best')
      ∧ incumbent_ok best'
      ∧ (∀ f route, f ∈ fl → dfs_route g target seen cur (f :: route) →
                    best'.2 ≤ t + flight_time (f :: route))
      ∧ (best' = best
         ∨ ∃ f route, f ∈ fl ∧ dfs_route g target seen cur (f :: route)
                      ∧ best' = (flown ++ f :: route,
                                 t + flight_time (f :: route))
                      ∧ best'.2 < best.2).
Proof.
  intros Hcur Hrec fl.
  induction fl as [| f fl IH]; intros flown best Hfl Hbest.
  { exists best. repeat split; [done | | by left].
    intros f route Hin. by apply not_elem_of_nil in Hin. }
  assert (Hf : f ∈ flights_from g cur) by apply Hfl, list_elem_of_here.
  assert (Hrest : ∀ f', f' ∈ fl → f' ∈ flights_from g cur).
  { intros f' Hin. by apply Hfl, list_elem_of_further. }
  (* what the body does with [f]: it leaves [flown] and an incumbent
     [best1] that accounts for every route through [f] *)
  assert (Hstep : ∃ best1,
    (let dest_code := icao (destination f) in
     if decide (dest_code ∉ ({[cur]} ∪ seen : gset string)) then
       let new_time := t + get_duration f in
       if decide (new_time < best.2) then
         let current_flights := flown ++ [f] in
         '((found_path, found_time), current_flights) ←
           rec dest_code (Some ({[cur]} ∪ seen)) new_time
             (Some current_flights) (Some best);
         current_flights ← list_pop current_flights;
         if decide (found_time < best.2) then
           Ok (current_flights, (found_path, found_time))
         else Ok (current_flights, best)
       else Ok (flown, best)
     else Ok (flown, best)) = Ok (flown, best1)
    ∧ incumbent_ok best1
    ∧ (∀ route, dfs_route g target seen cur (f :: route) →
                best1.2 ≤ t + flight_time (f :: route))
    ∧ (best1 = best
       ∨ ∃ route, dfs_route g target seen cur (f :: route)
                  ∧ best1 = (flown ++ f :: route,
                             t + flight_time (f :: route))
                  ∧ best1.2 < best.2)).
  { cbv zeta. case_decide as Hnew.
    2: { exists best. repeat split; [done | | by left].
         intros route Hroute. inversion Hroute; subst. done. }
    case_decide as Hprune.
    2: { exists best. repeat split; [done | | by left].
         intros route Hroute. inversion Hroute; subst.
         assert (0 ≤ flight_time route) by by eapply dfs_route_time.
         rewrite flight_time_cons. lia. }
    destruct (Hrec (icao (destination f)) (t + get_duration f)
                (flown ++ [f]) best)
      as ([found_path found_time] & -> & Hall & Hfound).
    { by eapply landing_code. }
    { by eapply ok_destination_registered. }
    { done. }
    { done. }
    rewrite bind_ok. cbv beta iota. rewrite list_pop_snoc, bind_ok.
    exists (found_path, found_time).
    assert (Hstate : (if decide (found_time < best.2)
                      then Ok (flown, (found_path, found_time))
                      else Ok (flown, best))
                     = Ok (flown, (found_path, found_time))).
    { case_decide as Hlt; [done |].
      destruct Hfound as [<- | (route & _ & _ & Hlt')]; [done |].
      simpl in Hlt'. lia. }
    split; [exact Hstate |]. split; [| split].
    - destruct Hfound as [-> | (route & _ & Heq & _)]; [done |].
      injection Heq as -> ->. intros Hnil. simpl in Hnil.
      by destruct flown.
    - intros route Hroute. inversion Hroute; subst.
      rewrite flight_time_cons, Z.add_assoc. by apply Hall.
    - destruct Hfound as [<- | (route & Hroute & Heq & Hlt)]; [by left |].
      right. exists route. split; [by constructor |].
      rewrite flight_time_cons, Z.add_assoc.
      rewrite <- app_assoc in Heq. by split. }
  destruct Hstep as (best1 & Hstep & Hbest1 & Hall1 & Hfound1).
  destruct (IH flown best1 Hrest Hbest1) as (best' & Hloop & Hbest' & Hall & Hfound).
  exists best'.
  assert (Hle1 : best1.2 ≤ best.2).
  { destruct Hfound1 as [-> | (? & _ & _ & ?)]; lia. }
  assert (Hle : best'.2 ≤ best1.2).
  { destruct Hfound as [-> | (? & ? & _ & _ & _ & ?)]; lia. }
  split; [| split; [done | split]].
  - cbn [for_each]. eapply bind_eq; [exact Hstep | exact Hloop].
  - intros f' route [-> | Hin]%elem_of_cons Hroute.
    + specialize (Hall1 route Hroute). lia.
    + by apply Hall.
  - destruct Hfound as [-> | (f' & route & Hin & Hroute & Heq & Hlt)].
    + destruct Hfound1 as [-> | (route & Hroute & Heq & Hlt)]; [by left |].
      right. exists f, route. split; [apply list_elem_of_here | done].
    + right. exists f', route.
      split; [by apply list_elem_of_further |]. repeat split; [done.. | lia].
Qed.

Lemma find_shortest_time_path_from_spec fuel :
  ∀ cur seen t flown best,
    registered g cur →
    (size (landing_codes g ∖ ({[cur]} ∪ seen)) < fuel)%nat →
    incumbent_ok best →
    ∃ best',
      find_shortest_time_path_from fuel g cur target (Some seen) t
        (Some flown) (Some best) = Ok (best', flown)
      ∧ search_result g target seen cur t flown best best'.
Proof.
  induction fuel as [| fuel IH]; intros cur seen t flown best Hcur Hfuel Hbest;
    [lia |].
  cbn [find_shortest_time_path_from].
  rewrite !decide_False by (intros Hn; by apply Hn).
  cbn [default from_option id]. case_decide as Hhere.
  - subst cur. case_decide as Hlt.
    + exists (flown, t). split; [done |]. split.
      * intros route Hroute. inversion Hroute; subst; [| done].
        simpl. lia.
      * right. exists []. split; [constructor |].
        by rewrite app_nil_r, Z.add_0_r.
    + exists best. split; [done |]. split; [| by left].
      intros route Hroute. inversion Hroute; subst; [| done]. simpl. lia.
  - destruct (shortest_time_loop cur seen t
                (λ code, find_shortest_time_path_from fuel g code target)
                Hhere)
      with (fl := flights_from g cur) (flown := flown) (best := best)
      as (best' & Hloop & Hbest' & Hall & Hfound).
    + intros code t' flown' best0 Hland Hreg Hnew Hinc.
      apply IH; [done | | done].
      assert (Hlt := fewer_codes_left (landing_codes g)
                       ({[cur]} ∪ seen) code Hland Hnew). lia.
    + done.
    + done.
    + exists best'. split.
      * eapply bind_eq; [exact Hloop |]. cbv beta iota.
        rewrite decide_True
          by by apply elem_of_union_l, elem_of_singleton.
        destruct best' as [[| f path] time]; [| done].
        pose proof (Hbest' eq_refl) as Hmax. cbn [fst snd] in *.
        by subst time.
      * split.
        -- intros route Hroute. inversion Hroute; subst; [done |].
           by apply Hall.
        -- destruct Hfound as [-> | (f & route & Hin & Hroute & Heq & Hlt)];
             [by left |].
           right. by exists (f :: route).
Qed.
End shortest_time.

(** The first call, with its arguments left out, is the call with the
    values that the code puts in their place. *)
Lemma find_shortest_time_path_from_defaults fuel g a b :
  find_shortest_time_path_from fuel g a b None 0 None None
  = find_shortest_time_path_from fuel g a b (Some ∅) 0 (Some [])
      (Some ([], timedelta_max)).
Proof. by destruct fuel. Qed.

(** C3, as the code has it: in a network that satisfies the invariants of
    the class and in which no flight lands before it leaves,
    [find_shortest_time_path] returns a route whose flight time is at most
    that of every route of [find_all_routes].  When [find_all_routes] has
    no route it returns the empty route with [timedelta.max]; as soon as
    some route has a flight time below [timedelta.max] it returns one of the
    routes of [find_all_routes], with its flight time. *)
Theorem find_shortest_time_path_minimal g a b :
  network_ok g → durations_ok g → registered g a → registered g b →
  ∃ routes best,
    find_all_routes g a b = Ok routes
    ∧ find_shortest_time_path g a b = Ok best
    ∧ (∀ r, r ∈ routes → flight_time best.1 ≤ flight_time r)
    ∧ (routes = [] → best = ([], timedelta_max))
    ∧ ((∃ r, r ∈ routes ∧ flight_time r < timedelta_max) →
       best.1 ∈ routes ∧ best.2 = flight_time best.1
       ∧ ∀ r, r ∈ routes → best.2 ≤ flight_time r).
Proof.
  intros Hok Hdur Ha Hb.
  destruct (find_all_routes_returns g a b Ha Hb) as (routes & Hall & Hdfs).
  destruct (find_shortest_time_path_from_spec g b Hok Hdur Hb (depth_bound g)
              a ∅ 0 [] ([], timedelta_max))
    as (best & Hrun & Hleast & Hfound).
  - done.
  - unfold depth_bound. apply Nat.lt_succ_r, subseteq_size.
    intros c. rewrite elem_of_difference. tauto.
  - done.
  - exists routes, best. split; [done |]. split.
    { unfold find_shortest_time_path.
      by rewrite find_shortest_time_path_from_defaults, Hrun. }
    assert (Hall_least : ∀ r, r ∈ routes → best.2 ≤ flight_time r).
    { intros r Hr%Hdfs. specialize (Hleast r Hr). lia. }
    destruct Hfound as [-> | (route & Hroute & -> & _)].
    + split; [| split; [done |]].
      * intros r Hr%Hdfs. simpl. by eapply dfs_route_time.
      * intros (r & Hr & Hshort). specialize (Hall_least r Hr).
        cbn [snd] in Hall_least. lia.
    + cbn [fst snd app] in *. rewrite Z.add_0_l in *. split; [| split].
      * done.
      * intros ->. apply Hdfs in Hroute. by apply not_elem_of_nil in Hroute.
      * intros _. split; [by apply Hdfs | done].
Qed.

Lemma built_example_backwards : built Examples.net_backwards.
Proof.
  unfold Examples.net_backwards, Examples.run. cbn [fold_left].
  repeat first [apply built_add_flight | apply built_add_airport
               | apply built_init].
Qed.

(** C3 fails on the networks that [add_flight] accepts: it does not look at
    the times of a flight, and with a flight that lands before it leaves the
    search returns the direct flight of two hours although
    [find_all_routes] has a route of one hour, which the search gave up
    after its first flight of five hours. *)
Lemma find_shortest_time_path_not_shortest :
  built Examples.net_backwards
  ∧ find_all_routes Examples.net_backwards "AAAA" "CCCC"
    = Ok [[Examples.ac_short]; [Examples.ab_long; Examples.bc_backwards]]
  ∧ find_shortest_time_path Examples.net_backwards "AAAA" "CCCC"
    = Ok ([Examples.ac_short], 2 * Examples.hour)
  ∧ ¬ (flight_time [Examples.ac_short]
       ≤ flight_time [Examples.ab_long; Examples.bc_backwards]).
Proof.
  split; [apply built_example_backwards |].
  repeat split; try (vm_compute; reflexivity).
  intros Hle. vm_compute in Hle. by apply Hle.
Qed.

(** The hypothesis on the times is needed: with a flight that lands before
    it leaves, the search gives up the way through [BBBB] after five hours
    in the air and misses the route of one hour. *)
Example pruning_needs_durations :
  find_shortest_time_path Examples.net_backwards "AAAA" "CCCC"
  = Ok ([Examples.ac_short], 2 * Examples.hour)
  ∧ find_all_routes Examples.net_backwards "AAAA" "CCCC"
    = Ok [[Examples.ac_short]; [Examples.ab_long; Examples.bc_backwards]]
  ∧ flight_time [Examples.ab_long; Examples.bc_backwards]
    = 1 * Examples.hour.
Proof. repeat split; vm_compute; reflexivity. Qed.

(** The example of the specification: the two queries disagree. *)
Example shortest_time_and_layover_disagree :
  find_all_routes Examples.net "AAAA" "CCCC"
  = Ok [[Examples.ab; Examples.bc]; [Examples.ac]]
  ∧ find_shortest_time_path Examples.net "AAAA" "CCCC"
    = Ok ([Examples.ab; Examples.bc], 4 * Examples.hour)
  ∧ find_shortest_layover Examples.net "AAAA" "CCCC" = Ok [Examples.ac]
  ∧ find_shortest_time_path Examples.net "CCCC" "AAAA"
    = Ok ([], timedelta_max).
Proof. repeat split; vm_compute; reflexivity. Qed.

(** ** The recursion budget *)

(** A result other than the exhaustion of the budget is the result under
    any larger budget: on the results of the searches, the budget of the
    model is not seen. *)

Lemma bind_more_fuel {A B} (m m' : outcome A) (k k' : A → outcome B) r :
  (m ≫= k) = r → r ≠ OutOfFuel →
  (∀ r', m = r' → r' ≠ OutOfFuel → m' = r') →
  (∀ a r', k a = r' → r' ≠ OutOfFuel → k' a = r') →
  (m' ≫= k') = r.
Proof.
  intros Hrun Hr Hm Hk. destruct m as [a | e |] eqn:Em.
  - rewrite (Hm (Ok a)) by done. rewrite bind_ok in *. by apply Hk.
  - rewrite (Hm (Raise e)) by done. done.
  - by subst r.
Qed.

Lemma for_each_more_fuel {A S} (xs : list A)
    (body body' : A → S → outcome S) :
  (∀ x s r, body x s = r → r ≠ OutOfFuel → body' x s = r) →
  ∀ s r, for_each xs body s = r → r ≠ OutOfFuel → for_each xs body' s = r.
Proof.
  intros Hbody. induction xs as [| x xs IH]; intros s r Hrun Hr; [done |].
  cbn [for_each] in *.
  eapply bind_more_fuel; [exact Hrun | done | apply Hbody | apply IH].
Qed.

Lemma find_paths_more_fuel fuel :
  ∀ g cur target st r,
    find_paths fuel g cur target st = r → r ≠ OutOfFuel →
    find_paths (S fuel) g cur target st = r.
Proof.
  induction fuel as [| fuel IH]; intros g cur target st r Hrun Hr.
  { by subst r. }
  remember (S fuel) as fuel' eqn:Efuel. cbn [find_paths].
  rewrite Efuel in Hrun. cbn [find_paths] in Hrun.
  eapply bind_more_fuel; [exact Hrun | done | | done].
  intros r1 Hrun1 Hr1. destruct (decide (cur = target)); [done |].
  eapply for_each_more_fuel; [| exact Hrun1 | done].
  intros f st' r2 Hrun2 Hr2. cbv beta in *.
  destruct (decide (icao (destination f) ∉ visited st')); [| done].
  eapply bind_more_fuel; [exact Hrun2 | done | | done].
  intros r3 Hrun3 Hr3. subst fuel'. by apply IH.
Qed.

Lemma find_shortest_time_path_from_more_fuel fuel :
  ∀ g cur target seen t flown best r,
    find_shortest_time_path_from fuel g cur target seen t flown best = r →
    r ≠ OutOfFuel →
    find_shortest_time_path_from (S fuel) g cur target seen t flown best = r.
Proof.
  induction fuel as [| fuel IH];
    intros g cur target seen t flown best r Hrun Hr.
  { by subst r. }
  remember (S fuel) as fuel' eqn:Efuel. cbn [find_shortest_time_path_from].
  rewrite Efuel in Hrun. cbn [find_shortest_time_path_from] in Hrun.
  destruct (decide (¬ registered g cur)); [done |].
  destruct (decide (¬ registered g target)); [done |].
  destruct (decide (cur = target)); [done |].
  eapply bind_more_fuel; [exact Hrun | done | | done].
  intros r1 Hrun1 Hr1.
  eapply for_each_more_fuel; [| exact Hrun1 | done].
  intros f [flown' best'] r2 Hrun2 Hr2. cbv beta iota zeta in *.
  destruct (decide (icao (destination f) ∉ {[cur]} ∪ default ∅ seen));
    [| done].
  destruct (decide (t + get_duration f < best'.2)); [| done].
  eapply bind_more_fuel; [exact Hrun2 | done | | done].
  intros r3 Hrun3 Hr3. subst fuel'. by apply IH.
Qed.

(** [find_all_routes] never exhausts the budget that the model gives it. *)
Lemma find_all_routes_terminates g a b :
  find_all_routes g a b ≠ OutOfFuel.
Proof.
  destruct (decide (registered g a ∧ registered g b)) as [[Ha Hb] | Hn].
  - by destruct (find_all_routes_returns g a b Ha Hb) as (routes & -> & _).
  - unfold find_all_routes. repeat case_decide; try done.
    exfalso. by apply Hn.
Qed.

(** ** The theorems at the example network *)

Lemma example_ok : network_ok Examples.net.
Proof. apply built_ok, built_example. Qed.

Lemma example_durations_ok : durations_ok Examples.net.
Proof.
  intros code f (s & Hs & Hin)%flights_from_lookup.
  assert (Hcases : f ∈ all_flights Examples.net).
  { eapply flights_from_all. unfold flights_from. by rewrite Hs. }
  vm_compute in Hcases.
  repeat (apply elem_of_cons in Hcases as [-> | Hcases]; [by vm_compute |]).
  by apply not_elem_of_nil in Hcases.
Qed.

Lemma find_all_routes_sound_witness :
  in_network Examples.net [Examples.ab; Examples.bc]
  ∧ simple "AAAA" [Examples.ab; Examples.bc]
  ∧ starts_at "AAAA" [Examples.ab; Examples.bc]
  ∧ ends_at "AAAA" "CCCC" [Examples.ab; Examples.bc]
  ∧ chain_adjacent [Examples.ab; Examples.bc].
Proof.
  apply (find_all_routes_sound Examples.net "AAAA" "CCCC"
           [[Examples.ab; Examples.bc]; [Examples.ac]]).
  - exact example_ok.
  - vm_compute. reflexivity.
  - apply list_elem_of_here.
Defined.

Lemma find_all_routes_complete_witness :
  ∃ routes, find_all_routes Examples.net "AAAA" "CCCC" = Ok routes
    ∧ (∀ r, connects Examples.net "AAAA" "CCCC" r → time_ordered r →
            simple "AAAA" r → r ∈ routes)
    ∧ (network_ok Examples.net →
       (∀ r, ¬ connects Examples.net "AAAA" "CCCC" r) → routes = []).
Proof.
  apply (find_all_routes_complete Examples.net "AAAA" "CCCC").
  - vm_compute. eauto.
  - vm_compute. eauto.
Defined.

Lemma find_shortest_time_path_minimal_witness :
  ∃ routes best,
    find_all_routes Examples.net "AAAA" "CCCC" = Ok routes
    ∧ find_shortest_time_path Examples.net "AAAA" "CCCC" = Ok best
    ∧ (∀ r, r ∈ routes → flight_time best.1 ≤ flight_time r)
    ∧ (routes = [] → best = ([], timedelta_max))
    ∧ ((∃ r, r ∈ routes ∧ flight_time r < timedelta_max) →
       best.1 ∈ routes ∧ best.2 = flight_time best.1
       ∧ ∀ r, r ∈ routes → best.2 ≤ flight_time r).
Proof.
  apply (find_shortest_time_path_minimal Examples.net "AAAA" "CCCC").
  - exact example_ok.
  - exact example_durations_ok.
  - vm_compute. eauto.
  - vm_compute. eauto.
Defined.

Lemma find_shortest_layover_minimal_witness :
  ∃ best, find_shortest_layover Examples.net "AAAA" "CCCC" = Ok best
    ∧ best ∈ [[Examples.ab; Examples.bc]; [Examples.ac]]
    ∧ ∀ r, r ∈ [[Examples.ab; Examples.bc]; [Examples.ac]] →
           total_layover best ≤ total_layover r.
Proof.
  apply (find_shortest_layover_minimal Examples.net "AAAA" "CCCC").
  - vm_compute. reflexivity.
  - discriminate.
Defined.

Lemma find_routes_by_airline_any_leg_witness :
  ∃ kept,
    find_routes_by_airline ascii_lower Examples.net "AAAA" "CCCC" "airx"
    = Ok kept
    ∧ kept = List.filter (any_operated_by ascii_lower "airx")
               [[Examples.ab; Examples.bc]; [Examples.ac]]
    ∧ (∀ r, r ∈ kept ↔
         r ∈ [[Examples.ab; Examples.bc]; [Examples.ac]]
         ∧ ∃ f, f ∈ r ∧ ascii_lower (airline_name f) = ascii_lower "airx")
    ∧ (∀ r f, r ∈ [[Examples.ab; Examples.bc]; [Examples.ac]] → f ∈ r →
         is_ascii (airline_name f) = true → is_ascii "airx" = true →
         ascii_lower (airline_name f) = ascii_lower "airx" →
         r ∈ kept).
Proof.
  apply (find_routes_by_airline_any_leg ascii_lower Examples.net
           "AAAA" "CCCC" "airx").
  - intros s _. reflexivity.
  - vm_compute. reflexivity.
Defined.

Lemma find_valid_routes_any_leg_witness :
  ∃ kept, find_valid_routes Examples.bland_required Examples.net "HK"
            "AAAA" "CCCC" = Ok kept
    ∧ kept = List.filter (lands_visa_free ["Bland"])
               [[Examples.ab; Examples.bc]; [Examples.ac]]
    ∧ ∀ r, r ∈ kept ↔
        r ∈ [[Examples.ab; Examples.bc]; [Examples.ac]]
        ∧ ∃ f, f ∈ r ∧ country (destination f) ∉ ["Bland"].
Proof.
  apply (find_valid_routes_any_leg Examples.bland_required Examples.net "HK"
           "AAAA" "CCCC").
  - reflexivity.
  - vm_compute. reflexivity.
Defined.

Lemma find_shortest_layover_no_route_witness :
  ∃ msg, find_shortest_layover Examples.net "CCCC" "AAAA"
         = Raise (IndexError msg).
Proof.
  apply (find_shortest_layover_no_route Examples.net "CCCC" "AAAA").
  vm_compute. reflexivity.
Defined.

Lemma total_layover_short_route_witness :
  total_layover [Examples.ac] = 0
  ∧ ∀ g a b (routes : list (list Flight)),
      find_all_routes g a b = Ok routes → [Examples.ac] ∈ routes →
      ∃ best, find_shortest_layover g a b = Ok best
              ∧ total_layover best ≤ 0.
Proof.
  apply (total_layover_short_route [Examples.ac]). simpl. lia.
Defined.

(** ** Further properties of the queries *)

(** X1: [find_all_routes] checks the departure code first and the
    destination code second, each with its own [ValueError]; with both
    registered it returns a list, whatever cycles the network has. *)
Theorem find_all_routes_errors g a b :
  (¬ registered g a →
   find_all_routes g a b = Raise (ValueError "Departure airport not found"))
  ∧ (registered g a → ¬ registered g b →
     find_all_routes g a b
     = Raise (ValueError "Destination airport not found"))
  ∧ (registered g a → registered g b →
     ∃ routes, find_all_routes g a b = Ok routes).
Proof.
  repeat split.
  - intros Ha. unfold find_all_routes. by rewrite decide_True.
  - intros Ha Hb. unfold find_all_routes.
    rewrite decide_False by (intros Hn; by apply Hn). by rewrite decide_True.
  - intros Ha Hb.
    destruct (find_all_routes_returns g a b Ha Hb) as (routes & Hall & _).
    by exists routes.
Qed.

Lemma find_all_routes_here g a :
  registered g a → find_all_routes g a a = Ok [[]].
Proof.
  intros Ha. unfold find_all_routes, depth_bound.
  rewrite !decide_False by (intros Hn; by apply Hn).
  cbn [find_paths]. rewrite decide_True by done.
  rewrite bind_ok. unfold unvisit, record_path, visit.
  cbn [paths visited all_paths].
  rewrite decide_True by by apply elem_of_union_l, elem_of_singleton.
  done.
Qed.

(** X2: from a registered airport to itself there is one route, the empty
    one; no flight out of the airport is tried. *)
Theorem find_all_routes_same_airport g a :
  registered g a → find_all_routes g a a = Ok [[]].
Proof. apply find_all_routes_here. Qed.

Lemma timedelta_max_pos : 0 < timedelta_max.
Proof. by vm_compute. Qed.

(** X10: from a registered airport to itself, [find_shortest_time_path]
    returns the empty route with the zero [timedelta], not the pair of the
    empty route and [timedelta.max], and [find_shortest_layover] returns the
    empty route. *)
Theorem shortest_queries_same_airport g a :
  registered g a →
  find_shortest_time_path g a a = Ok ([], 0)
  ∧ find_shortest_layover g a a = Ok [].
Proof.
  intros Ha. split.
  - unfold find_shortest_time_path, depth_bound.
    cbn [find_shortest_time_path_from].
    rewrite !decide_False by (intros Hn; by apply Hn).
    rewrite decide_True by done. cbn [default from_option id snd].
    by rewrite decide_True by apply timedelta_max_pos.
  - unfold find_shortest_layover. by rewrite find_all_routes_here.
Qed.

(** X11: the two filters keep no route without a flight: from a registered
    airport to itself they return the empty list, although
    [find_all_routes] returns the empty route. *)
Theorem filters_drop_empty_route str_lower visa_service g passport a airline
    (required : list string) :
  registered g a → visa_service passport = Ok required →
  find_routes_by_airline str_lower g a a airline = Ok []
  ∧ find_valid_routes visa_service g passport a a = Ok [].
Proof.
  intros Ha Hvisa. split.
  - unfold find_routes_by_airline. by rewrite find_all_routes_here.
  - unfold find_valid_routes. by rewrite Hvisa, find_all_routes_here.
Qed.

(** X12: each query starts with the two checks of [find_all_routes] and
    raises its [ValueError]: for an unregistered departure code whatever the
    destination code is, and for an unregistered destination code otherwise.
    [find_valid_routes] asks the visa service before it checks the codes, so
    an exception of the service comes first. *)
Theorem queries_raise_value_error str_lower visa_service g passport a b
    airline :
  let departure := ValueError "Departure airport not found" in
  let destination := ValueError "Destination airport not found" in
  (¬ registered g a →
   find_shortest_time_path g a b = Raise departure
   ∧ find_shortest_layover g a b = Raise departure
   ∧ find_routes_by_airline str_lower g a b airline = Raise departure
   ∧ (∀ required, visa_service passport = Ok required →
        find_valid_routes visa_service g passport a b = Raise departure))
  ∧ (registered g a → ¬ registered g b →
     find_shortest_time_path g a b = Raise destination
     ∧ find_shortest_layover g a b = Raise destination
     ∧ find_routes_by_airline str_lower g a b airline = Raise destination
     ∧ (∀ required, visa_service passport = Ok required →
          find_valid_routes visa_service g passport a b = Raise destination))
  ∧ (∀ e, visa_service passport = Raise e →
       find_valid_routes visa_service g passport a b = Raise e).
Proof.
  intros departure destination. split; [| split].
  - intros Ha.
    assert (Hall : find_all_routes g a b = Raise departure).
    { unfold find_all_routes. by rewrite decide_True. }
    repeat split.
    + unfold find_shortest_time_path, depth_bound.
      cbn [find_shortest_time_path_from]. by rewrite decide_True.
    + unfold find_shortest_layover. by rewrite Hall.
    + unfold find_routes_by_airline. by rewrite Hall.
    + intros required Hvisa. unfold find_valid_routes. by rewrite Hvisa, Hall.
  - intros Ha Hb.
    assert (Hall : find_all_routes g a b = Raise destination).
    { unfold find_all_routes.
      rewrite decide_False by (intros Hn; by apply Hn).
      by rewrite decide_True. }
    repeat split.
    + unfold find_shortest_time_path, depth_bound.
      cbn [find_shortest_time_path_from].
      rewrite decide_False by (intros Hn; by apply Hn).
      by rewrite decide_True.
    + unfold find_shortest_layover. by rewrite Hall.
    + unfold find_routes_by_airline. by rewrite Hall.
    + intros required Hvisa. unfold find_valid_routes. by rewrite Hvisa, Hall.
  - intros e Hvisa. unfold find_valid_routes. by rewrite Hvisa.
Qed.

(** ** Invariants of the networks that are built *)

Lemma flights_from_add_airport airport g code :
  flights_from (add_airport airport g).2 code = flights_from g code.
Proof. reflexivity. Qed.

Lemma set_add_NoDup f (s : list Flight) : NoDup s → NoDup (set_add f s).
Proof.
  intros Hs. unfold set_add. case_decide as Hin; [done |].
  apply NoDup_app. split; [done |]. split; [| apply NoDup_singleton].
  intros f' Hf' ->%list_elem_of_singleton. done.
Qed.

Lemma built_flight_sets g : built g → ∀ code, NoDup (flights_from g code).
Proof.
  induction 1 as [| g airport _ IH | g flight _ IH]; intros code.
  - unfold flights_from, init. cbn. rewrite lookup_empty. apply NoDup_nil_2.
  - by rewrite flights_from_add_airport.
  - destruct (decide (registered g (icao (origin flight))
                      ∧ registered g (icao (destination flight))))
      as [[Ho Hd] | Hn].
    + rewrite flights_from_add_flight by done.
      case_decide; [by apply set_add_NoDup | done].
    + by destruct (add_flight_raises flight g Hn) as [msg ->].
Qed.

Lemma built_airports_keyed g :
  built g → ∀ code airport, airports g !! code = Some airport →
                            icao airport = code.
Proof.
  induction 1 as [| g airport _ IH | g flight _ IH]; intros code stored.
  - unfold init. cbn. by rewrite lookup_empty.
  - cbn. destruct (decide (icao airport = code)) as [<- | Hne].
    + rewrite lookup_insert_eq. by intros [= ->].
    + rewrite lookup_insert_ne by done. apply IH.
  - rewrite add_flight_airports. apply IH.
Qed.

(** X4: whatever sequence of calls of [add_airport] and [add_flight] builds
    a network, failed calls included, the network satisfies the
    representation invariants that the class lists, every airport is stored
    under its own code, and no set of flights holds the same flight object
    twice. *)
Theorem built_keeps_invariants g :
  built g →
  network_ok g
  ∧ (∀ code airport, airports g !! code = Some airport → icao airport = code)
  ∧ (∀ code, NoDup (flights_from g code)).
Proof.
  intros Hbuilt. split; [by apply built_ok |].
  split; [by apply built_airports_keyed | by apply built_flight_sets].
Qed.

(** ** Each route once *)

Lemma explored_inj st (found found' : list (list Flight)) :
  explored st found = explored st found' → found = found'.
Proof. unfold explored. intros [= Heq]. by apply app_inv_head in Heq. Qed.

Lemma explore_flights_nodup g target cur (seen : gset string)
    (rec : string → dfs → outcome dfs) :
  (∀ code st,
     code ∈ landing_codes g → code ∉ visited st →
     visited st = {[cur]} ∪ seen →
     ∃ found, rec code st = Ok (explored st found)
       ∧ NoDup found
       ∧ ∀ r, r ∈ found ↔
           ∃ route, r = paths st ++ route
                    ∧ dfs_route g target (visited st) code route) →
  ∀ (fl : list Flight) st,
    NoDup fl →
    (∀ f, f ∈ fl → f ∈ flights_from g cur) →
    visited st = {[cur]} ∪ seen →
    ∃ found,
      for_each fl
        (λ flight st,
           if decide (icao (destination flight) ∉ visited st) then
             st ← rec (icao (destination flight)) (push flight st);
             pop st
           else Ok st) st
      = Ok (explored st found)
      ∧ NoDup found.
Proof.
  intros Hrec.
  assert (Hrec' : ∀ code st,
     code ∈ landing_codes g → code ∉ visited st →
     visited st = {[cur]} ∪ seen →
     ∃ found, rec code st = Ok (explored st found)
       ∧ ∀ r, r ∈ found ↔
           ∃ route, r = paths st ++ route
                    ∧ dfs_route g target (visited st) code route).
  { intros code st H1 H2 H3.
    destruct (Hrec code st H1 H2 H3) as (found & Heq & _ & Hmem). eauto. }
  intros fl. induction fl as [| f fl IH]; intros st Hnodup Hfl Hseen.
  { exists []. rewrite explored_nil. split; [done | apply NoDup_nil_2]. }
  apply NoDup_cons in Hnodup as [Hf Hnodup].
  assert (Hrest : ∀ f', f' ∈ fl → f' ∈ flights_from g cur).
  { intros f' Hin. by apply Hfl, list_elem_of_further. }
  cbn [for_each]. case_decide as Hnew.
  - destruct (Hrec (icao (destination f)) (push f st))
      as (found1 & -> & Hnd1 & Hmem1).
    { eapply landing_code, Hfl, list_elem_of_here. }
    { done. }
    { done. }
    rewrite bind_ok. unfold pop, explored, push.
    cbn [paths visited all_paths]. rewrite list_pop_snoc, !bind_ok.
    destruct (IH (explored st found1) Hnodup Hrest Hseen)
      as (found2 & Heq2 & Hnd2).
    destruct (explore_flights g target cur seen rec Hrec' fl
                (explored st found1) Hrest Hseen)
      as (found2' & Heq2' & Hmem2).
    assert (found2' = found2) as ->.
    { rewrite Heq2 in Heq2'. injection Heq2' as Heq2'.
      by apply app_inv_head in Heq2'. }
    rewrite explored_app in Heq2.
    exists (found1 ++ found2). split; [exact Heq2 |].
    apply NoDup_app. split; [done |]. split; [| done].
    intros r (route & -> & _)%Hmem1 (f' & route' & Hin & _ & Heq & _)%Hmem2.
    cbn [paths push explored] in Heq. rewrite <- app_assoc in Heq.
    apply app_inv_head in Heq. injection Heq as -> _. done.
  - rewrite bind_ok. by apply IH.
Qed.

Lemma find_paths_nodup g target fuel :
  (∀ code, NoDup (flights_from g code)) →
  ∀ cur st,
    cur ∉ visited st →
    (size (landing_codes g ∖ ({[cur]} ∪ visited st)) < fuel)%nat →
    ∃ found, find_paths fuel g cur target st = Ok (explored st found)
             ∧ NoDup found.
Proof.
  intros Hsets.
  induction fuel as [| fuel IH]; intros cur st Hcur Hfuel; [lia |].
  assert (Hback := remove_added (visited st) cur Hcur).
  assert (Hadded : cur ∈ ({[cur]} ∪ visited st : gset string))
    by by apply elem_of_union_l, elem_of_singleton.
  cbn [find_paths]. case_decide as Htarget.
  - exists [paths st]. rewrite bind_ok. unfold unvisit, record_path, visit.
    cbn [paths visited all_paths]. rewrite decide_True by done. rewrite Hback.
    split; [done | apply NoDup_singleton].
  - destruct (explore_flights_nodup g target cur (visited st)
                (λ code st', find_paths fuel g code target st'))
      with (fl := flights_from g cur) (st := visit cur st)
      as (found & Hloop & Hfound).
    + intros code st' Hland Hnew Hseen.
      assert (Hlt : (size (landing_codes g ∖ ({[code]} ∪ visited st'))
                     < fuel)%nat).
      { rewrite Hseen.
        assert (Hlt := fewer_codes_left (landing_codes g)
                         ({[cur]} ∪ visited st) code Hland).
        rewrite Hseen in Hnew. specialize (Hlt Hnew). lia. }
      destruct (IH code st' Hnew Hlt) as (found & Heq & Hnd).
      destruct (find_paths_spec g target fuel code st' Hnew Hlt)
        as (found' & Heq' & Hmem).
      assert (found' = found) as ->.
      { rewrite Heq in Heq'. injection Heq' as Heq'.
        by apply app_inv_head in Heq'. }
      by exists found.
    + apply Hsets.
    + done.
    + done.
    + cbv beta in Hloop. rewrite Hloop, bind_ok. unfold unvisit, explored, visit.
      cbn [paths visited all_paths]. rewrite decide_True by done.
      rewrite Hback. by exists found.
Qed.

(** X3: when no set of flights holds the same flight twice, as in every
    network that is built, [find_all_routes] returns no route twice. *)
Theorem find_all_routes_no_duplicates g a b (routes : list (list Flight)) :
  (∀ code, NoDup (flights_from g code)) →
  find_all_routes g a b = Ok routes → NoDup routes.
Proof.
  intros Hsets Hall.
  destruct (find_all_routes_registered g a b routes Hall) as [Ha Hb].
  revert Hall. unfold find_all_routes.
  rewrite !decide_False by (intros Hn; by apply Hn).
  destruct (find_paths_nodup g b (depth_bound g) Hsets a (mkDfs [] ∅ []))
    as (found & -> & Hnd).
  - apply not_elem_of_empty.
  - unfold depth_bound. cbn [visited]. apply Nat.lt_succ_r, subseteq_size.
    intros c. rewrite elem_of_difference. tauto.
  - rewrite bind_ok. unfold explored. cbn. by intros [= <-].
Qed.

(** ** The airports of a route *)

Lemma follows_stops_registered g a (route : list Flight) :
  network_ok g → registered g a → follows g a route →
  ∀ c, c ∈ stops a route → registered g c.
Proof.
  intros Hok. revert a. induction route as [| f route IH];
    intros a Ha Hfollows c Hc.
  - apply list_elem_of_singleton in Hc. by subst c.
  - destruct Hfollows as [Hf Hrest]. unfold stops in Hc.
    rewrite fmap_cons in Hc. apply elem_of_cons in Hc as [-> | Hc]; [done |].
    apply (IH (icao (destination f))); [| done | done].
    by eapply ok_destination_registered.
Qed.

Lemma routes_follow g a b (routes : list (list Flight)) r :
  find_all_routes g a b = Ok routes → r ∈ routes →
  follows g a r ∧ NoDup (stops a r).
Proof.
  intros Hall Hin.
  destruct (find_all_routes_registered g a b routes Hall) as [Ha Hb].
  destruct (find_all_routes_returns g a b Ha Hb) as (routes' & Hall' & Hdfs).
  assert (routes' = routes) as -> by congruence.
  apply Hdfs, dfs_route_sound in Hin as (Hfollows & Hnodup & _). done.
Qed.

(** X14: in a network that satisfies the invariants of the class, every
    airport on a route that [find_all_routes] returns is registered. *)
Theorem find_all_routes_stops_registered g a b
    (routes : list (list Flight)) r :
  network_ok g → find_all_routes g a b = Ok routes → r ∈ routes →
  ∀ c, c ∈ stops a r → registered g c.
Proof.
  intros Hok Hall Hin.
  destruct (find_all_routes_registered g a b routes Hall) as [Ha _].
  destruct (routes_follow g a b routes r Hall Hin) as [Hfollows _].
  by apply follows_stops_registered.
Qed.

(** X15: in such a network a returned route has fewer flights than the
    network has airports: the search never goes deeper than that. *)
Theorem find_all_routes_length_bound g a b
    (routes : list (list Flight)) r :
  network_ok g → find_all_routes g a b = Ok routes → r ∈ routes →
  (length r < size (dom (airports g)))%nat.
Proof.
  intros Hok Hall Hin.
  destruct (find_all_routes_registered g a b routes Hall) as [Ha _].
  destruct (routes_follow g a b routes r Hall Hin) as [Hfollows Hnodup].
  assert (Hsub : stops a r ⊆+ elements (dom (airports g))).
  { apply NoDup_submseteq; [done |]. intros c Hc.
    apply elem_of_elements, elem_of_dom.
    by eapply follows_stops_registered. }
  apply submseteq_length in Hsub. unfold stops in Hsub.
  cbn [length] in Hsub. rewrite length_fmap in Hsub.
  unfold size, set_size. cbn. lia.
Qed.

(** ** Routes when the network grows *)

Lemma for_each_ext {A S} (xs : list A) (body body' : A → S → outcome S) :
  (∀ x s, body x s = body' x s) →
  ∀ s, for_each xs body s = for_each xs body' s.
Proof.
  intros Hbody. induction xs as [| x xs IH]; intros s; [done |].
  cbn [for_each]. rewrite Hbody. by destruct (body' x s); cbn.
Qed.

(** The enumeration reads the flights of the network only. *)
Lemma find_paths_flights fuel g g' :
  flights g = flights g' →
  ∀ cur target st,
    find_paths fuel g cur target st = find_paths fuel g' cur target st.
Proof.
  intros Hflights. induction fuel as [| fuel IH]; intros cur target st;
    [done |].
  cbn [find_paths]. unfold flights_from. rewrite Hflights.
  case_decide; [done |]. f_equal. apply for_each_ext.
  intros f st'. case_decide; [| done]. by rewrite IH.
Qed.

Lemma depth_bound_flights g g' :
  flights g = flights g' → depth_bound g = depth_bound g'.
Proof.
  intros Hflights. unfold depth_bound, landing_codes, all_flights.
  by rewrite Hflights.
Qed.

(** X5: registering one more airport, or another airport under a code
    already in use, changes no answer of the enumeration between airports
    that were registered, nor of the queries that go through it. *)
Theorem add_airport_keeps_routes str_lower g airport a b airline :
  registered g a → registered g b →
  let g' := (add_airport airport g).2 in
  find_all_routes g' a b = find_all_routes g a b
  ∧ find_shortest_layover g' a b = find_shortest_layover g a b
  ∧ find_routes_by_airline str_lower g' a b airline
    = find_routes_by_airline str_lower g a b airline.
Proof.
  intros Ha Hb g'.
  assert (Hall : find_all_routes g' a b = find_all_routes g a b).
  { unfold find_all_routes.
    rewrite !decide_False
      by (intros Hn; apply Hn; by (apply add_airport_registered || idtac)).
    by rewrite (depth_bound_flights g' g),
      (find_paths_flights _ g' g) by done. }
  unfold find_shortest_layover, find_routes_by_airline. by rewrite Hall.
Qed.

Lemma dfs_route_more_flights g g' target seen cur (route : list Flight) :
  (∀ code f, f ∈ flights_from g code → f ∈ flights_from g' code) →
  dfs_route g target seen cur route → dfs_route g' target seen cur route.
Proof.
  intros Hmore. induction 1; constructor; auto.
Qed.

Lemma dfs_route_without g g' flight target seen cur (route : list Flight) :
  (∀ code f, f ∈ flights_from g' code →
             f = flight ∨ f ∈ flights_from g code) →
  dfs_route g' target seen cur route → flight ∉ route →
  dfs_route g target seen cur route.
Proof.
  intros Hless. induction 1 as [| seen cur f route Hne Hf Hnew _ IH];
    intros Hnot; constructor; try done.
  - destruct (Hless _ _ Hf) as [-> | Hin]; [| done].
    exfalso. apply Hnot, list_elem_of_here.
  - apply IH. intros Hin. by apply Hnot, list_elem_of_further.
Qed.

(** X6: a call of [add_flight] loses no route: between registered airports
    every route found before the call is found after it, and a route found
    only after it goes through the flight that was added. *)
Theorem add_flight_keeps_routes g flight a b :
  registered g a → registered g b →
  ∃ routes routes',
    find_all_routes g a b = Ok routes
    ∧ find_all_routes (add_flight flight g).2 a b = Ok routes'
    ∧ (∀ r, r ∈ routes → r ∈ routes')
    ∧ (∀ r, r ∈ routes' → flight ∉ r → r ∈ routes).
Proof.
  intros Ha Hb.
  destruct (find_all_routes_returns g a b Ha Hb) as (routes & Hall & Hdfs).
  assert (Hreg : ∀ code, registered g code →
                         registered (add_flight flight g).2 code).
  { intros code. unfold registered. by rewrite add_flight_airports. }
  destruct (find_all_routes_returns (add_flight flight g).2 a b
              (Hreg a Ha) (Hreg b Hb)) as (routes' & Hall' & Hdfs').
  exists routes, routes'. split; [done |]. split; [done |].
  destruct (decide (registered g (icao (origin flight))
                    ∧ registered g (icao (destination flight))))
    as [[Ho Hd] | Hn].
  - assert (Hin : ∀ code f,
              f ∈ flights_from (add_flight flight g).2 code ↔
              (code = icao (origin flight) ∧ f = flight)
              ∨ f ∈ flights_from g code).
    { intros code f. rewrite flights_from_add_flight by done.
      case_decide as Hc; [| tauto].
      rewrite elem_of_set_add. subst code. tauto. }
    split.
    + intros r Hr%Hdfs. apply Hdfs'.
      eapply dfs_route_more_flights; [| done].
      intros code f Hf. apply Hin. by right.
    + intros r Hr%Hdfs' Hnot. apply Hdfs.
      eapply dfs_route_without; [| done | done].
      intros code f [[_ ->] | Hf]%Hin; [by left | by right].
  - destruct (add_flight_raises flight g Hn) as [msg Hraise].
    rewrite Hraise in Hall'. cbn [snd] in Hall'.
    assert (routes' = routes) as -> by congruence. done.
Qed.

(** ** Times of a route *)

Lemma total_layover_cons first f (rest : list Flight) :
  total_layover (first :: f :: rest)
  = (departure_time f - arrival_time first) + total_layover (f :: rest).
Proof. cbn [total_layover layover_loop]. rewrite layover_loop_acc. lia. Qed.

Lemma last_cons_default (l : list Flight) f d :
  List.last (f :: l) d = List.last l f.
Proof.
  revert f d. induction l as [| f' l IH]; intros f d; [done |].
  change (List.last (f :: f' :: l) d) with (List.last (f' :: l) d).
  by rewrite !IH.
Qed.

(** X7: the flight times and the layovers of a route add up to the time
    from the departure of its first flight to the arrival of its last, in
    whatever order the flights are in time. *)
Theorem trip_time_splits first (rest : list Flight) :
  flight_time (first :: rest) + total_layover (first :: rest)
  = arrival_time (List.last rest first) - departure_time first.
Proof.
  revert first. induction rest as [| f rest IH]; intros first.
  - cbn. unfold get_duration. lia.
  - rewrite flight_time_cons, total_layover_cons.
    specialize (IH f).
    rewrite last_cons_default. unfold get_duration in *. lia.
Qed.

(** X8: on a route in which each flight lands before the next one leaves,
    which is what the docstring of [total_layover] asks for, the total
    layover is not negative. *)
Theorem total_layover_nonneg (route : list Flight) :
  time_ordered route → 0 ≤ total_layover route.
Proof.
  induction route as [| first [| f rest] IH]; intros Hordered.
  - done.
  - done.
  - destruct Hordered as [Hle Hrest]. rewrite total_layover_cons.
    specialize (IH Hrest). lia.
Qed.

(** The loop of [find_shortest_layover] stops at the first route whose
    layover no later route goes below. *)
Lemma shortest_layover_loop_first (others : list (list Flight)) :
  ∀ before best between,
    (∀ r, r ∈ before → total_layover best < total_layover r) →
    (∀ r, r ∈ between → total_layover best ≤ total_layover r) →
    ∃ res before' after,
      fold_left shorter_layover others (best, total_layover best)
      = (res, total_layover res)
      ∧ before ++ best :: between ++ others = before' ++ res :: after
      ∧ (∀ r, r ∈ before' → total_layover res < total_layover r)
      ∧ (∀ r, r ∈ after → total_layover res ≤ total_layover r).
Proof.
  induction others as [| route others IH];
    intros before best between Hbefore Hbetween; cbn [fold_left].
  - exists best, before, between. by rewrite app_nil_r.
  - unfold shorter_layover at 2. cbv beta iota zeta. case_decide as Hlt.
    + destruct (IH (before ++ best :: between) route [])
        as (res & before' & after & Hrun & Hsplit & H1 & H2).
      * intros r [Hr | [-> | Hr]%elem_of_cons]%elem_of_app.
        -- specialize (Hbefore r Hr). lia.
        -- done.
        -- specialize (Hbetween r Hr). lia.
      * intros r Hr. by apply not_elem_of_nil in Hr.
      * exists res, before', after. split; [done |]. split; [| done].
        rewrite <- Hsplit. by rewrite <- app_assoc.
    + destruct (IH before best (between ++ [route]))
        as (res & before' & after & Hrun & Hsplit & H1 & H2).
      * done.
      * intros r [Hr | ->%list_elem_of_singleton]%elem_of_app.
        -- by apply Hbetween.
        -- lia.
      * exists res, before', after. split; [done |]. split; [| done].
        rewrite <- Hsplit. by rewrite <- app_assoc.
Qed.

(** X9: among routes of the same least layover [find_shortest_layover]
    returns the one that [find_all_routes] lists first: every route listed
    before the result has a larger layover. *)
Theorem find_shortest_layover_first_minimal g a b
    (routes : list (list Flight)) :
  find_all_routes g a b = Ok routes → routes ≠ [] →
  ∃ best before after,
    find_shortest_layover g a b = Ok best
    ∧ routes = before ++ best :: after
    ∧ (∀ r, r ∈ before → total_layover best < total_layover r)
    ∧ (∀ r, r ∈ after → total_layover best ≤ total_layover r).
Proof.
  intros Hall Hne. unfold find_shortest_layover. rewrite Hall, bind_ok.
  destruct routes as [| first others]; [done |].
  destruct (shortest_layover_loop_first others [] first [])
    as (res & before & after & -> & Hsplit & H1 & H2).
  - intros r Hr. by apply not_elem_of_nil in Hr.
  - intros r Hr. by apply not_elem_of_nil in Hr.
  - by exists res, before, after.
Qed.

(** X13: in a network that satisfies the invariants, with no flight that
    lands before it leaves, as soon as some route of [find_all_routes] has a
    flight time below [timedelta.max], [find_shortest_time_path] returns one
    of the routes of [find_all_routes], with its flight time, and no route
    has a smaller one. *)
Theorem find_shortest_time_path_finds_route g a b
    (routes : list (list Flight)) r :
  network_ok g → durations_ok g →
  find_all_routes g a b = Ok routes → r ∈ routes →
  flight_time r < timedelta_max →
  ∃ best, find_shortest_time_path g a b = Ok best
    ∧ best.1 ∈ routes
    ∧ best.2 = flight_time best.1
    ∧ ∀ r', r' ∈ routes → best.2 ≤ flight_time r'.
Proof.
  intros Hok Hdur Hall Hin Hshort.
  destruct (find_all_routes_registered g a b routes Hall) as [Ha Hb].
  destruct (find_all_routes_returns g a b Ha Hb) as (routes' & Hall' & Hdfs).
  assert (routes' = routes) as -> by congruence.
  destruct (find_shortest_time_path_from_spec g b Hok Hdur Hb (depth_bound g)
              a ∅ 0 [] ([], timedelta_max))
    as (best & Hrun & Hleast & Hfound).
  - done.
  - unfold depth_bound. apply Nat.lt_succ_r, subseteq_size.
    intros c. rewrite elem_of_difference. tauto.
  - done.
  - exists best. split.
    { unfold find_shortest_time_path.
      by rewrite find_shortest_time_path_from_defaults, Hrun. }
    assert (Hall_least : ∀ r', r' ∈ routes → best.2 ≤ flight_time r').
    { intros r' Hr'%Hdfs. specialize (Hleast r' Hr'). lia. }
    destruct Hfound as [-> | (route & Hroute & -> & _)].
    + specialize (Hall_least r Hin). cbn [snd] in Hall_least. lia.
    + cbn [fst snd app] in *. rewrite Z.add_0_l in *.
      split; [by apply Hdfs |]. by split.
Qed.

(** ** Airline reputations *)

Example reputation_of_routes :
  get_route_airline_reputations Examples.scores [Examples.ab; Examples.bc]
  = Returns 3.75%float
  ∧ best_reputation_route Examples.scores
      [[Examples.ab; Examples.bc]; [Examples.ac]]
    = Returns (Some (4%float, [Examples.ac])).
Proof. split; vm_compute; reflexivity. Qed.

Lemma total_reputation_known reps (path : list Flight) total :
  (∀ f, f ∈ path → is_Some (reps !! airline_icao f)) →
  ∃ x, total_reputation reps path total = Returns x.
Proof.
  revert total. induction path as [| f path IH]; intros total Hknown.
  - by exists total.
  - cbn [total_reputation].
    destruct (Hknown f (list_elem_of_here _ _)) as [x ->].
    apply IH. intros f' Hf'. by apply Hknown, list_elem_of_further.
Qed.

Lemma total_reputation_unknown reps (before after : list Flight) f total :
  (∀ f', f' ∈ before → is_Some (reps !! airline_icao f')) →
  reps !! airline_icao f = None →
  total_reputation reps (before ++ f :: after) total
  = Fails (Raised (KeyError (airline_icao f))).
Proof.
  revert total. induction before as [| f' before IH]; intros total Hknown Hf.
  - cbn. by rewrite Hf.
  - cbn [app total_reputation].
    destruct (Hknown f' (list_elem_of_here _ _)) as [x ->].
    apply IH; [| done]. intros f'' Hf''. by apply Hknown, list_elem_of_further.
Qed.

(** X16: [get_route_airline_reputations] raises [ZeroDivisionError] on the
    empty path; it raises [KeyError] with the airline code of the first
    flight whose airline has no score, whatever comes after that flight;
    and it returns a number for every other path. *)
Theorem get_route_airline_reputations_errors reps :
  get_route_airline_reputations reps []
  = Fails (ZeroDivisionError "division by zero")
  ∧ (∀ (before after : list Flight) f,
       (∀ f', f' ∈ before → is_Some (reps !! airline_icao f')) →
       reps !! airline_icao f = None →
       get_route_airline_reputations reps (before ++ f :: after)
       = Fails (Raised (KeyError (airline_icao f))))
  ∧ (∀ path : list Flight,
       path ≠ [] →
       (∀ f, f ∈ path → is_Some (reps !! airline_icao f)) →
       ∃ x, get_route_airline_reputations reps path = Returns x).
Proof.
  split; [done |]. split.
  - intros before after f Hknown Hf. unfold get_route_airline_reputations.
    by rewrite total_reputation_unknown.
  - intros path Hne Hknown. unfold get_route_airline_reputations.
    destruct (total_reputation_known reps path PrimFloat.zero Hknown)
      as [x ->].
    destruct path; [done | eauto].
Qed.

(** X17: with the same airport as origin and destination, choice 3 of the
    menu fails: the list that [find_all_routes] returns is not empty, since
    it holds the empty route, and the score of the empty route is a division
    by zero. *)
Theorem best_reputation_route_same_airport reps g a :
  registered g a →
  ∃ routes, find_all_routes g a a = Ok routes
    ∧ best_reputation_route reps routes
      = Fails (ZeroDivisionError "division by zero").
Proof.
  intros Ha. exists [[]]. split; [by apply find_all_routes_here | done].
Qed.



(** ** The order in which a set of flights is iterated *)

(** Two networks with the same registered codes and, under each code, the
    same flights, in whatever order: two iteration orders of the same Python
    sets. *)
Lemma dfs_route_same_flights g g' target seen cur (route : list Flight) :
  (∀ code f, f ∈ flights_from g code ↔ f ∈ flights_from g' code) →
  dfs_route g target seen cur route ↔ dfs_route g' target seen cur route.
Proof.
  intros Hsame. split; apply dfs_route_more_flights; intros code f;
    by apply Hsame.
Qed.

(** X19: the routes that [find_all_routes] returns do not depend, as a set,
    on the order in which the sets of flights are iterated: two networks
    with the same registered codes and the same flights under each code
    give lists with the same routes. *)
Theorem find_all_routes_order_independent g g' a b
    (routes : list (list Flight)) :
  (∀ code, registered g code ↔ registered g' code) →
  (∀ code f, f ∈ flights_from g code ↔ f ∈ flights_from g' code) →
  find_all_routes g a b = Ok routes →
  ∃ routes', find_all_routes g' a b = Ok routes'
             ∧ ∀ r, r ∈ routes ↔ r ∈ routes'.
Proof.
  intros Hreg Hsame Hall.
  destruct (find_all_routes_registered g a b routes Hall) as [Ha Hb].
  destruct (find_all_routes_returns g a b Ha Hb) as (routes0 & Hall0 & Hdfs).
  assert (routes0 = routes) as -> by congruence.
  destruct (find_all_routes_returns g' a b) as (routes' & Hall' & Hdfs');
    [by apply Hreg | by apply Hreg |].
  exists routes'. split; [done |]. intros r.
  by rewrite Hdfs, Hdfs', (dfs_route_same_flights g g').
Qed.

(** X20: nor do the least layover and the least flight time: on two such
    networks [find_shortest_layover] returns routes of the same total
    layover, and, when the networks satisfy the invariants and no flight
    lands before it leaves, [find_shortest_time_path] returns the same
    time. *)
Theorem shortest_values_order_independent g g' a b :
  (∀ code, registered g code ↔ registered g' code) →
  (∀ code f, f ∈ flights_from g code ↔ f ∈ flights_from g' code) →
  (∀ best best',
     find_shortest_layover g a b = Ok best →
     find_shortest_layover g' a b = Ok best' →
     total_layover best = total_layover best')
  ∧ (network_ok g → network_ok g' → durations_ok g →
     registered g a → registered g b →
     ∃ best best',
       find_shortest_time_path g a b = Ok best
       ∧ find_shortest_time_path g' a b = Ok best'
       ∧ best.2 = best'.2).
Proof.
  intros Hreg Hsame. split.
  - intros best best' Hbest Hbest'.
    destruct (find_all_routes g a b) as [routes | e |] eqn:Hall;
      [| by unfold find_shortest_layover in Hbest; rewrite Hall in Hbest
       | by unfold find_shortest_layover in Hbest; rewrite Hall in Hbest].
    destruct (find_all_routes_order_independent g g' a b routes Hreg Hsame Hall)
      as (routes' & Hall' & Hroutes).
    assert (Hne : routes ≠ []).
    { intros ->. unfold find_shortest_layover in Hbest.
      by rewrite Hall in Hbest. }
    assert (Hne' : routes' ≠ []).
    { intros ->. unfold find_shortest_layover in Hbest'.
      by rewrite Hall' in Hbest'. }
    destruct (shortest_layover_of_routes g a b routes Hall Hne)
      as (best0 & Hrun & Hin & Hmin).
    destruct (shortest_layover_of_routes g' a b routes' Hall' Hne')
      as (best0' & Hrun' & Hin' & Hmin').
    assert (best0 = best) as -> by congruence.
    assert (best0' = best') as -> by congruence.
    apply Hroutes in Hin. apply Hroutes in Hin'.
    specialize (Hmin _ Hin'). specialize (Hmin' _ Hin). lia.
  - intros Hok Hok' Hdur Ha Hb.
    assert (Hdur' : durations_ok g').
    { intros code f Hf%Hsame. by eapply Hdur. }
    assert (Hfuel : ∀ h, (size (landing_codes h ∖ ({[a]} ∪ ∅))
                          < depth_bound h)%nat).
    { intros h. unfold depth_bound. apply Nat.lt_succ_r, subseteq_size.
      intros c. rewrite elem_of_difference. tauto. }
    destruct (find_shortest_time_path_from_spec g b Hok Hdur Hb
                (depth_bound g) a ∅ 0 [] ([], timedelta_max))
      as (best & Hrun & Hleast & Hfound); [done | apply Hfuel | done |].
    destruct (find_shortest_time_path_from_spec g' b Hok' Hdur'
                (proj1 (Hreg b) Hb) (depth_bound g') a ∅ 0 []
                ([], timedelta_max))
      as (best' & Hrun' & Hleast' & Hfound');
      [by apply Hreg | apply Hfuel | done |].
    exists best, best'.
    split; [unfold find_shortest_time_path;
            by rewrite find_shortest_time_path_from_defaults, Hrun |].
    split; [unfold find_shortest_time_path;
            by rewrite find_shortest_time_path_from_defaults, Hrun' |].
    destruct Hfound as [-> | (route & Hroute & -> & Hlt)];
      destruct Hfound' as [-> | (route' & Hroute' & -> & Hlt')];
      cbn [fst snd] in *.
    + done.
    + apply (dfs_route_same_flights g g') in Hroute'; [| done].
      specialize (Hleast _ Hroute'). cbn [snd] in Hleast. lia.
    + apply (dfs_route_same_flights g g') in Hroute; [| done].
      specialize (Hleast' _ Hroute). cbn [snd] in Hleast'. lia.
    + pose proof Hroute as Hr. pose proof Hroute' as Hr'.
      apply (dfs_route_same_flights g g') in Hr; [| done].
      apply (dfs_route_same_flights g g') in Hr'; [| done].
      specialize (Hleast _ Hr'). specialize (Hleast' _ Hr). lia.
Qed.

(** ** The further properties at the example networks *)

Lemma example_same_codes code :
  registered Examples.net code ↔ registered Examples.net_reordered code.
Proof.
  unfold registered.
  assert (airports Examples.net = airports Examples.net_reordered) as ->
    by (vm_compute; reflexivity).
  done.
Qed.

Lemma example_same_flights code f :
  f ∈ flights_from Examples.net code
  ↔ f ∈ flights_from Examples.net_reordered code.
Proof.
  unfold flights_from.
  assert (flights Examples.net
          = <["AAAA" := [Examples.ab; Examples.ac]]>
              (<["BBBB" := [Examples.bc]]> ∅)) as ->
    by (vm_compute; reflexivity).
  assert (flights Examples.net_reordered
          = <["AAAA" := [Examples.ac; Examples.ab]]>
              (<["BBBB" := [Examples.bc]]> ∅)) as ->
    by (vm_compute; reflexivity).
  destruct (decide (code = "AAAA")) as [-> | Hne].
  - rewrite !lookup_insert_eq. cbn. rewrite !elem_of_cons. tauto.
  - assert (Hne' : "AAAA" ≠ code) by congruence.
    by rewrite !(lookup_insert_ne _ "AAAA") by done.
Qed.

Lemma find_all_routes_same_airport_witness :
  find_all_routes Examples.net "BBBB" "BBBB" = Ok [[]].
Proof.
  apply (find_all_routes_same_airport Examples.net "BBBB").
  vm_compute. eauto.
Defined.

Lemma find_all_routes_no_duplicates_witness :
  NoDup [[Examples.ab; Examples.bc]; [Examples.ac]].
Proof.
  apply (find_all_routes_no_duplicates Examples.net "AAAA" "CCCC").
  - apply built_flight_sets, built_example.
  - vm_compute. reflexivity.
Defined.

Lemma built_keeps_invariants_witness :
  network_ok Examples.net
  ∧ (∀ code airport, airports Examples.net !! code = Some airport →
                     icao airport = code)
  ∧ (∀ code, NoDup (flights_from Examples.net code)).
Proof.
  apply (built_keeps_invariants Examples.net). exact built_example.
Defined.

Lemma add_airport_keeps_routes_witness :
  find_all_routes (add_airport Examples.AAAA_renamed Examples.net).2
    "AAAA" "CCCC" = find_all_routes Examples.net "AAAA" "CCCC"
  ∧ find_shortest_layover (add_airport Examples.AAAA_renamed Examples.net).2
      "AAAA" "CCCC" = find_shortest_layover Examples.net "AAAA" "CCCC"
  ∧ find_routes_by_airline ascii_lower
      (add_airport Examples.AAAA_renamed Examples.net).2 "AAAA" "CCCC" "airx"
    = find_routes_by_airline ascii_lower Examples.net "AAAA" "CCCC" "airx".
Proof.
  apply (add_airport_keeps_routes ascii_lower Examples.net
           Examples.AAAA_renamed "AAAA" "CCCC" "airx").
  - vm_compute. eauto.
  - vm_compute. eauto.
Defined.

Lemma add_flight_keeps_routes_witness :
  ∃ routes routes',
    find_all_routes Examples.net "AAAA" "CCCC" = Ok routes
    ∧ find_all_routes (add_flight Examples.bc_early Examples.net).2
        "AAAA" "CCCC" = Ok routes'
    ∧ (∀ r, r ∈ routes → r ∈ routes')
    ∧ (∀ r, r ∈ routes' → Examples.bc_early ∉ r → r ∈ routes).
Proof.
  apply (add_flight_keeps_routes Examples.net Examples.bc_early
           "AAAA" "CCCC").
  - vm_compute. eauto.
  - vm_compute. eauto.
Defined.

Lemma total_layover_nonneg_witness :
  0 ≤ total_layover [Examples.ab; Examples.bc].
Proof.
  apply (total_layover_nonneg [Examples.ab; Examples.bc]).
  split; [by vm_compute | done].
Defined.

Lemma find_shortest_layover_first_minimal_witness :
  ∃ best before after,
    find_shortest_layover Examples.net "AAAA" "CCCC" = Ok best
    ∧ [[Examples.ab; Examples.bc]; [Examples.ac]] = before ++ best :: after
    ∧ (∀ r, r ∈ before → total_layover best < total_layover r)
    ∧ (∀ r, r ∈ after → total_layover best ≤ total_layover r).
Proof.
  apply (find_shortest_layover_first_minimal Examples.net "AAAA" "CCCC").
  - vm_compute. reflexivity.
  - discriminate.
Defined.

Lemma shortest_queries_same_airport_witness :
  find_shortest_time_path Examples.net "BBBB" "BBBB" = Ok ([], 0)
  ∧ find_shortest_layover Examples.net "BBBB" "BBBB" = Ok [].
Proof.
  apply (shortest_queries_same_airport Examples.net "BBBB").
  vm_compute. eauto.
Defined.

Lemma filters_drop_empty_route_witness :
  find_routes_by_airline ascii_lower Examples.net "BBBB" "BBBB" "airx"
  = Ok []
  ∧ find_valid_routes Examples.bland_required Examples.net "HK"
      "BBBB" "BBBB" = Ok [].
Proof.
  apply (filters_drop_empty_route ascii_lower Examples.bland_required
           Examples.net "HK" "BBBB" "airx" ["Bland"]).
  - vm_compute. eauto.
  - reflexivity.
Defined.

Lemma find_shortest_time_path_finds_route_witness :
  ∃ best, find_shortest_time_path Examples.net "AAAA" "CCCC" = Ok best
    ∧ best.1 ∈ [[Examples.ab; Examples.bc]; [Examples.ac]]
    ∧ best.2 = flight_time best.1
    ∧ ∀ r', r' ∈ [[Examples.ab; Examples.bc]; [Examples.ac]] →
            best.2 ≤ flight_time r'.
Proof.
  apply (find_shortest_time_path_finds_route Examples.net "AAAA" "CCCC"
           [[Examples.ab; Examples.bc]; [Examples.ac]] [Examples.ac]).
  - exact example_ok.
  - exact example_durations_ok.
  - vm_compute. reflexivity.
  - apply list_elem_of_further, list_elem_of_here.
  - by vm_compute.
Defined.

Lemma find_all_routes_stops_registered_witness :
  registered Examples.net "BBBB".
Proof.
  apply (find_all_routes_stops_registered Examples.net "AAAA" "CCCC"
           [[Examples.ab; Examples.bc]; [Examples.ac]]
           [Examples.ab; Examples.bc]).
  - exact example_ok.
  - vm_compute. reflexivity.
  - apply list_elem_of_here.
  - apply list_elem_of_further, list_elem_of_here.
Defined.

Lemma find_all_routes_length_bound_witness :
  (length [Examples.ab; Examples.bc] < size (dom (airports Examples.net)))%nat.
Proof.
  apply (find_all_routes_length_bound Examples.net "AAAA" "CCCC"
           [[Examples.ab; Examples.bc]; [Examples.ac]]).
  - exact example_ok.
  - vm_compute. reflexivity.
  - apply list_elem_of_here.
Defined.

Lemma best_reputation_route_same_airport_witness :
  ∃ routes, find_all_routes Examples.net "BBBB" "BBBB" = Ok routes
    ∧ best_reputation_route Examples.scores routes
      = Fails (ZeroDivisionError "division by zero").
Proof.
  apply (best_reputation_route_same_airport Examples.scores Examples.net
           "BBBB").
  vm_compute. eauto.
Defined.

Lemma find_all_routes_order_independent_witness :
  ∃ routes', find_all_routes Examples.net_reordered "AAAA" "CCCC" = Ok routes'
    ∧ ∀ r, r ∈ [[Examples.ab; Examples.bc]; [Examples.ac]] ↔ r ∈ routes'.
Proof.
  apply (find_all_routes_order_independent Examples.net
           Examples.net_reordered "AAAA" "CCCC").
  - exact example_same_codes.
  - exact example_same_flights.
  - vm_compute. reflexivity.
Defined.

Lemma shortest_values_order_independent_witness :
  (∀ best best',
     find_shortest_layover Examples.net "AAAA" "CCCC" = Ok best →
     find_shortest_layover Examples.net_reordered "AAAA" "CCCC" = Ok best' →
     total_layover best = total_layover best')
  ∧ (network_ok Examples.net → network_ok Examples.net_reordered →
     durations_ok Examples.net →
     registered Examples.net "AAAA" → registered Examples.net "CCCC" →
     ∃ best best',
       find_shortest_time_path Examples.net "AAAA" "CCCC" = Ok best
       ∧ find_shortest_time_path Examples.net_reordered "AAAA" "CCCC"
         = Ok best'
       ∧ best.2 = best'.2).
Proof.
  apply (shortest_values_order_independent Examples.net
           Examples.net_reordered "AAAA" "CCCC").
  - exact example_same_codes.
  - exact example_same_flights.
Defined.

(** The two orders give the two routes in two orders. *)
Example routes_in_two_orders :
  find_all_routes Examples.net "AAAA" "CCCC"
  = Ok [[Examples.ab; Examples.bc]; [Examples.ac]]
  ∧ find_all_routes Examples.net_reordered "AAAA" "CCCC"
    = Ok [[Examples.ac]; [Examples.ab; Examples.bc]].
Proof. split; vm_compute; reflexivity. Qed.
